(** * Kernel ridge and kernel logistic regression (models.py)

    A shallow embedding of the two estimator classes of [models.py],
    [KernelRidgeRegression] and [KernelLogisticRegression], and the
    properties of their construction, training, prediction and reset.

    - numpy's float arithmetic is an interface ([Scalar]): the results hold
      for every implementation of [+ - * /], [exp], [sqrt] and [<];
    - [np.linalg.solve] is a parameter of type [LinearSolver], with its
      contract stated as hypotheses where a result depends on it;
    - a method call is a computation in [Call]: it reads and writes the
      attributes of [self], appends to the console, and returns or raises;
    - arrays handed over by the caller live in a [store]; an attribute
      assignment such as [self.Data = X] stores the reference. *)

From Stdlib Require Import String Ascii.
From Stdlib Require Import List ZArith Bool Lia.
From Stdlib Require Import QArith Qcanon DecimalString Permutation.
Import ListNotations.
Close Scope Qc_scope.
Close Scope Q_scope.

Set Implicit Arguments.

(* ================================================================== *)
(** * Exceptions and fallible expressions *)

(** The exceptions a call of [models.py] can end in. *)
Inductive exn : Type :=
| LinAlgError
    (** [numpy.linalg.LinAlgError], raised by [np.linalg.solve] *)
| OperandError
    (** numpy refusing the operands of [@], [+], [-] or [*]: shapes that do
        not fit, or [None] where an array is expected *)
| UnboundLocalError
    (** a local variable read before any assignment *)
| Raised (cls : string)
    (** an exception of class [cls] raised by caller-supplied code
        (the kernel function) or by the linear solver *).

(** [models.py] defines no exception class of its own and raises none
    explicitly: a [NotTrainedError] or a [ConfigError] could only come out
    of caller-supplied code. *)
Definition is_NotTrainedError (e : exn) : bool :=
  match e with
  | Raised cls => String.eqb cls "NotTrainedError"
  | _ => false
  end.

Definition is_ConfigError (e : exn) : bool :=
  match e with
  | Raised cls => String.eqb cls "ConfigError"
  | _ => false
  end.

(** An expression evaluates to a value or raises. *)
Definition result (A : Type) : Type := (exn + A)%type.

Definition ok {A} (a : A) : result A := inr a.
Definition throw {A} (e : exn) : result A := inl e.

Definition rbind {A B} (r : result A) (k : A -> result B) : result B :=
  match r with
  | inl e => inl e
  | inr a => k a
  end.

Declare Scope result_scope.
Delimit Scope result_scope with res.
Notation "x <- r ;; k" := (rbind r (fun x => k))
  (at level 61, r at next level, right associativity) : result_scope.

(* ================================================================== *)
(** * Scalars *)

(** The float operations the two classes use. [fint] is the conversion of
    a Python [int] (an array dimension) in a mixed product such as
    [self.Lambda*n]. *)
Class Scalar : Type := {
  num   : Type;
  fzero : num;
  fone  : num;
  fadd  : num -> num -> num;
  fsub  : num -> num -> num;
  fmul  : num -> num -> num;
  fdiv  : num -> num -> num;
  fneg  : num -> num;
  fexp  : num -> num;
  fsqrt : num -> num;
  flt   : num -> num -> bool;
  fint  : nat -> num
}.

(* ================================================================== *)
(** * Arrays *)

Section Arrays.
Context {F : Scalar}.

(** A column, shape [(n, 1)], and a matrix, shape [(n, k)], as the list
    of its rows. *)
Definition vec : Type := list num.
Definition mat : Type := list (list num).

(** [K.shape[0]] *)
Definition nrows (M : mat) : nat := length M.

Definition ncols (M : mat) : nat :=
  match M with
  | [] => 0
  | r :: _ => length r
  end.

Definition zipWith (f : num -> num -> num) (x y : list num) : list num :=
  map (fun p => f (fst p) (snd p)) (combine x y).

(** The inner product of two rows. *)
Definition dot (x y : list num) : num :=
  fold_right fadd fzero (zipWith fmul x y).

(** [np.zeros((n, 1))] *)
Definition zeros (n : nat) : vec := repeat fzero n.

(** [np.eye(n)] *)
Definition eye (n : nat) : mat :=
  map (fun i => map (fun j => if Nat.eqb i j then fone else fzero) (seq 0 n))
      (seq 0 n).

(** [np.diag(l)] of a one-dimensional [l] *)
Definition diag (l : list num) : mat :=
  map (fun i =>
         map (fun j => if Nat.eqb i j then nth i l fzero else fzero)
             (seq 0 (length l)))
      (seq 0 (length l)).

(** [c * M] for a scalar [c] *)
Definition mscale (c : num) (M : mat) : mat := map (map (fmul c)) M.

Definition same_length (x y : list num) : bool :=
  Nat.eqb (length x) (length y).

Definition same_shape (A B : mat) : bool :=
  Nat.eqb (length A) (length B)
  && forallb (fun p => same_length (fst p) (snd p)) (combine A B).

(** [x - y] and [x * y] on columns of one length *)
Definition vsub (x y : vec) : result vec :=
  if same_length x y then ok (zipWith fsub x y) else throw OperandError.

Definition vmul (x y : vec) : result vec :=
  if same_length x y then ok (zipWith fmul x y) else throw OperandError.

(** [A + B] on matrices of one shape *)
Definition madd (A B : mat) : result mat :=
  if same_shape A B
  then ok (map (fun p => zipWith fadd (fst p) (snd p)) (combine A B))
  else throw OperandError.

(** [M @ a] for a column [a]: every row of [M] is as long as [a] *)
Definition matvec (M : mat) (a : vec) : result vec :=
  if forallb (fun r => same_length r a) M
  then ok (map (fun r => dot r a) M)
  else throw OperandError.

Definition col (j : nat) (M : mat) : list num :=
  map (fun r => nth j r fzero) M.

(** [A @ B]: every row of [A] is as long as [B] has rows *)
Definition mmul (A B : mat) : result mat :=
  if forallb (fun r => Nat.eqb (length r) (nrows B)) A
  then ok (map (fun r => map (fun j => dot r (col j B)) (seq 0 (ncols B))) A)
  else throw OperandError.

(** [np.linalg.norm(x)]: the square root of [x . x] *)
Definition norm (x : vec) : num := fsqrt (dot x x).

(** [M] has [n] rows of [k] entries. *)
Definition has_shape (n k : nat) (M : mat) : Prop :=
  length M = n /\ Forall (fun r => length r = k) M.

Definition square (M : mat) : Prop := has_shape (length M) (length M) M.

(** A square matrix is nonsingular when its null space is trivial. *)
Definition nonsingular (M : mat) : Prop :=
  forall v, matvec M v = ok (zeros (length M)) -> v = zeros (length M).

(** [np.linalg.solve], and the kernel function handed to a constructor.
    The kernel's second operand is whatever [self.Data] holds, [None]
    before training. *)
Definition LinearSolver : Type := mat -> vec -> result vec.
Definition kernel_func : Type := mat -> option mat -> result mat.

(** The contract of [np.linalg.solve]: a returned column solves the
    system, and a nonsingular square system with a right-hand side of
    its size is solved. *)
Definition solve_sound (solve : LinearSolver) : Prop :=
  forall A b x, solve A b = ok x -> matvec A x = ok b.

Definition solve_complete (solve : LinearSolver) : Prop :=
  forall A b, square A -> nonsingular A -> length b = length A ->
              exists x, solve A b = ok x.
End Arrays.

(* ================================================================== *)
(** * The caller's arrays and method calls *)

(** Arrays are objects: the caller holds a reference [loc] to each, and
    the [store] gives the current contents. Writing into an array in place
    ([X[i, j] = v]) updates the store at its reference. *)
Definition loc : Type := nat.

Section Store.
Context {F : Scalar}.

Definition store : Type := loc -> mat.

Definition write_array (h : store) (l : loc) (M : mat) : store :=
  fun l' => if Nat.eqb l' l then M else h l'.

(** What a reference-valued attribute denotes in a store. *)
Definition deref (h : store) (d : option loc) : option mat :=
  option_map h d.
End Store.

(** The outcome of a method call on an object of type [S]: the object's
    attributes after the call, the lines printed, and the value returned
    or the exception raised. An exception leaves the attribute writes made
    before it in place. *)
Record outcome (S A : Type) : Type := Outcome {
  self_after : S;
  console    : list string;
  returned   : result A
}.

Definition Call (S A : Type) : Type := S -> outcome S A.

Definition ret {S A} (a : A) : Call S A :=
  fun s => Outcome s [] (ok a).

Definition bind {S A B} (c : Call S A) (k : A -> Call S B) : Call S B :=
  fun s =>
    let o := c s in
    match returned o with
    | inl e => Outcome (self_after o) (console o) (inl e)
    | inr a =>
        let o' := k a (self_after o) in
        Outcome (self_after o') (console o ++ console o') (returned o')
    end.

(** Reading an attribute, assigning attributes, evaluating an expression
    that may raise, and [print]. *)
Definition attr {S A} (f : S -> A) : Call S A :=
  fun s => Outcome s [] (ok (f s)).

Definition assign {S} (f : S -> S) : Call S unit :=
  fun s => Outcome (f s) [] (ok tt).

Definition eval {S A} (r : result A) : Call S A :=
  fun s => Outcome s [] r.

Definition print {S} (line : string) : Call S unit :=
  fun s => Outcome s [line] (ok tt).

Declare Scope call_scope.
Delimit Scope call_scope with call.
Notation "x <- c ;; k" := (bind c (fun x => k))
  (at level 61, c at next level, right associativity) : call_scope.
Notation "c ;; k" := (bind c (fun _ => k))
  (at level 61, right associativity) : call_scope.

(** The decimal form of an integer in an f-string. *)
Definition str_of_int (z : Z) : string := NilZero.string_of_int (Z.to_int z).

(* ================================================================== *)
(** * class KernelRidgeRegression *)

Module KRR.
Section Class.
Context {F : Scalar}.
Variable solve : LinearSolver.

Record t : Type := Obj {
  Kernel : kernel_func;
  Alpha  : option vec;
  Data   : option loc;
  Lambda : num
}.

Definition set_Alpha (a : option vec) (self : t) : t :=
  Obj (Kernel self) a (Data self) (Lambda self).

Definition set_Data (d : option loc) (self : t) : t :=
  Obj (Kernel self) (Alpha self) d (Lambda self).

(** [__init__(self, kernel_func, Lambda)]: the outcome's [self_after] is
    the new object. *)
Definition init (kernel : kernel_func) (Lambda : num) : outcome t unit :=
  Outcome (Obj kernel None None Lambda) ["Kernel Ridge Regression"%string]
          (ok tt).

Definition reset : Call t unit :=
  (assign (set_Alpha None) ;;
   assign (set_Data None))%call.

Definition train (h : store) (X : loc) (y : vec) : Call t unit :=
  (assign (set_Data (Some X)) ;;
   kernel <- attr Kernel ;;
   K <- eval (kernel (h X) (Some (h X))) ;;
   let n := nrows K in
   let I := eye n in
   Lam <- attr Lambda ;;
   A <- eval (madd K (mscale (fmul Lam (fint n)) I)) ;;
   a <- eval (solve A y) ;;
   assign (set_Alpha (Some a)))%call.

(** [K @ self.Alpha]: numpy rejects [None] as an operand. *)
Definition matvec_attr (K : mat) (a : option vec) : result vec :=
  match a with
  | None => throw OperandError
  | Some a => matvec K a
  end.

Definition predict (h : store) (X : mat) : Call t vec :=
  (kernel <- attr Kernel ;;
   data <- attr Data ;;
   K <- eval (kernel X (deref h data)) ;;
   alpha <- attr Alpha ;;
   y <- eval (matvec_attr K alpha) ;;
   ret y)%call.
End Class.
End KRR.

(* ================================================================== *)
(** * class KernelLogisticRegression *)

Module KLR.
Section Class.
Context {F : Scalar}.
Variable solve : LinearSolver.

Record t : Type := Obj {
  Kernel    : kernel_func;
  Alpha     : option vec;
  Data      : option loc;
  Lambda    : num;
  tol       : num;
  max_iter  : Z;
  threshold : num
}.

Definition set_Alpha (a : option vec) (self : t) : t :=
  Obj (Kernel self) a (Data self) (Lambda self) (tol self) (max_iter self)
      (threshold self).

Definition set_Data (d : option loc) (self : t) : t :=
  Obj (Kernel self) (Alpha self) d (Lambda self) (tol self) (max_iter self)
      (threshold self).

Definition init (kernel : kernel_func) (Lambda tol : num) (max_iter : Z)
           (threshold : num) : outcome t unit :=
  Outcome (Obj kernel None None Lambda tol max_iter threshold)
          ["Kernel Logistic Regression"%string] (ok tt).

Definition reset : Call t unit :=
  (assign (set_Alpha None) ;;
   assign (set_Data None))%call.

(** [loss(self, s)]: the two derivatives of the logistic loss at every
    entry of [s], each as a diagonal matrix. [-1/(1 + e)] is [(-1)/(1 + e)]
    and [e/(1 + e)**2] divides by the square. *)
Definition l1 (s : num) : num :=
  fdiv (fneg fone) (fadd fone (fexp s)).

Definition l2 (s : num) : num :=
  fdiv (fexp s) (fmul (fadd fone (fexp s)) (fadd fone (fexp s))).

Definition loss (s : vec) : mat * mat :=
  (diag (map l1 s), diag (map l2 s)).

(** [range(self.max_iter)] *)
Definition range (n : Z) : list Z := map Z.of_nat (seq 0 (Z.to_nat n)).

(** The locals that the loop body binds and the code after the loop
    reads: [step], [error] and [alpha_new]. *)
Record locals : Type := Locals {
  step      : Z;
  error     : num;
  alpha_new : vec
}.

(** One pass through the body of the [for] loop, up to the assignment of
    [error]. *)
Definition body (K : mat) (y : vec) (Lam : num) (n : nat) (I : mat)
           (alpha_old : vec) : result (num * vec) :=
  (m <- matvec K alpha_old ;;
   s <- vmul y m ;;
   let (P, W) := loss s in
   Wm <- matvec W m ;;
   Py <- matvec P y ;;
   z <- vsub Wm Py ;;
   WK <- mmul W K ;;
   A <- madd WK (mscale (fmul Lam (fint n)) I) ;;
   alpha_new <- solve A z ;;
   d <- vsub alpha_new alpha_old ;;
   ok (norm d, alpha_new))%res.

(** The [for] loop over the remaining values of [step]: [bound] holds
    the loop's locals as bound so far ([None] before the first pass),
    and the loop returns them as they are when it is left, by [break]
    or at the end of the range. *)
Fixpoint for_loop (K : mat) (y : vec) (Lam tl : num) (n : nat) (I : mat)
         (steps : list Z) (alpha_old : vec) (bound : option locals)
  : result (option locals) :=
  match steps with
  | [] => ok bound
  | st :: rest =>
      (p <- body K y Lam n I alpha_old ;;
       let (err, a_new) := p in
       if flt err tl
       then ok (Some (Locals st err a_new))
       else for_loop K y Lam tl n I rest a_new
                     (Some (Locals st err a_new)))%res
  end.

(** Reading [step], [error] and [alpha_new] after the loop. *)
Definition read_locals (bound : option locals) : result locals :=
  match bound with
  | None => throw UnboundLocalError
  | Some l => ok l
  end.

Definition warning (max_iter : Z) : string :=
  ("Kernel Logistic Regression didn't converge ! you might want to take max_iter > "
     ++ str_of_int max_iter)%string.

Definition train (h : store) (X : loc) (y : vec) : Call t unit :=
  (assign (set_Data (Some X)) ;;
   kernel <- attr Kernel ;;
   K <- eval (kernel (h X) (Some (h X))) ;;
   let n := nrows K in
   let I := eye n in
   let alpha_old := zeros n in
   Lam <- attr Lambda ;;
   tl <- attr tol ;;
   mi <- attr max_iter ;;
   bound <- eval (for_loop K y Lam tl n I (range mi) alpha_old None) ;;
   l <- eval (read_locals bound) ;;
   (if Z.eqb (step l) (mi - 1) && flt tl (error l)
    then print (warning mi)
    else ret tt) ;;
   assign (set_Alpha (Some (alpha_new l))))%call.

Definition matvec_attr (K : mat) (a : option vec) : result vec :=
  match a with
  | None => throw OperandError
  | Some a => matvec K a
  end.

(** [1/(1 + np.exp(-f))] *)
Definition sigmoid (f : num) : num :=
  fdiv fone (fadd fone (fexp (fneg f))).

(** [(p > self.threshold).astype(int)] and [2*y - 1] *)
Definition indicator (thr p : num) : Z := Z.b2z (flt thr p).
Definition label (y : Z) : Z := 2 * y - 1.

Definition predict (h : store) (X : mat) : Call t (list Z) :=
  (kernel <- attr Kernel ;;
   data <- attr Data ;;
   K <- eval (kernel X (deref h data)) ;;
   alpha <- attr Alpha ;;
   f <- eval (matvec_attr K alpha) ;;
   let p := map sigmoid f in
   thr <- attr threshold ;;
   let y := map (indicator thr) p in
   ret (map label y))%call.
End Class.
End KLR.

(* ================================================================== *)
(** * The estimators as the specification describes them *)

Section Specification.
Context {F : Scalar}.

(** The matrix of the ridge system, [K + Lambda*n*I] with [n] the number
    of rows of [K]. *)
Definition ridge_system (Lam : num) (K : mat) : result mat :=
  madd K (mscale (fmul Lam (fint (nrows K))) (eye (nrows K))).

(** One Newton step of the logistic estimator, in the words of the
    specification: with [m = K.Alpha_t] and [s = y (.) m], the derivatives
    [l1_i = -1/(1 + exp(s_i))] and [l2_i = exp(s_i)/(1 + exp(s_i))^2],
    [P = diag(l1)], [W = diag(l2)] and [z = W.m - P.y], the next iterate
    [Alpha_t1] satisfies [(W.K + Lambda.n.I).Alpha_t1 = z]. *)
Definition newton_system (K : mat) (y : vec) (Lam : num)
           (Alpha_t Alpha_t1 : vec) : Prop :=
  exists m s Wm Py z WK A,
    let l1 := map (fun s_i => fdiv (fneg fone) (fadd fone (fexp s_i))) s in
    let l2 := map (fun s_i =>
                     fdiv (fexp s_i)
                          (fmul (fadd fone (fexp s_i)) (fadd fone (fexp s_i))))
                  s in
    let P := diag l1 in
    let W := diag l2 in
    matvec K Alpha_t = ok m /\
    vmul y m = ok s /\
    matvec W m = ok Wm /\
    matvec P y = ok Py /\
    vsub Wm Py = ok z /\
    mmul W K = ok WK /\
    madd WK (mscale (fmul Lam (fint (nrows K))) (eye (nrows K))) = ok A /\
    matvec A Alpha_t1 = ok z.

(** [e] is the Euclidean norm of [a' - a]. *)
Definition change (a' a : vec) (e : num) : Prop :=
  exists d, vsub a' a = ok d /\ e = norm d.

(** How an iteration ends: some step met the tolerance, or the budget ran
    out with no step meeting it. *)
Inductive verdict : Type := Converged | ExhaustedBudget.

(** [irls K y Lam tl budget Alpha_t final v]: from [Alpha_t], with [budget]
    steps allowed, the iteration accepts [final] with verdict [v]. It stops
    at the first step whose change is below [tl], and otherwise goes on as
    long as the budget allows. *)
Inductive irls (K : mat) (y : vec) (Lam tl : num)
  : nat -> vec -> vec -> verdict -> Prop :=
| irls_stop budget a a' e :
    newton_system K y Lam a a' -> change a' a e -> flt e tl = true ->
    irls K y Lam tl (S budget) a a' Converged
| irls_last a a' e :
    newton_system K y Lam a a' -> change a' a e -> flt e tl = false ->
    irls K y Lam tl 1 a a' ExhaustedBudget
| irls_next budget a a' e final v :
    newton_system K y Lam a a' -> change a' a e -> flt e tl = false ->
    irls K y Lam tl (S budget) a' final v ->
    irls K y Lam tl (S (S budget)) a final v.

(** The verdict that the locals left by the loop stand for. *)
Definition verdict_of (tl : num) (l : KLR.locals) : verdict :=
  if flt (KLR.error l) tl then Converged else ExhaustedBudget.


(** ** The calls of [train], in pieces *)

(** The loop of [train] and the reading of its locals afterwards. *)
Definition klr_fit (solve : LinearSolver) (self : KLR.t) (K : mat) (y : vec) : result KLR.locals :=
  (bound <- KLR.for_loop solve K y (KLR.Lambda self) (KLR.tol self) (nrows K)
                         (eye (nrows K)) (KLR.range (KLR.max_iter self))
                         (zeros (nrows K)) None ;;
   KLR.read_locals bound)%res.

Definition klr_warns (self : KLR.t) (l : KLR.locals) : bool :=
  Z.eqb (KLR.step l) (KLR.max_iter self - 1)
  && flt (KLR.tol self) (KLR.error l).


(** The laws of exact arithmetic that the algebra of a trained ridge
    estimator rests on; floating-point arithmetic has them up to
    rounding. *)
Record exact_arithmetic : Prop := ExactArithmetic {
  add_comm      : forall a b, fadd a b = fadd b a;
  add_assoc     : forall a b c, fadd a (fadd b c) = fadd (fadd a b) c;
  add_zero_r    : forall a, fadd a fzero = a;
  mul_zero_l    : forall a, fmul fzero a = fzero;
  mul_zero_r    : forall a, fmul a fzero = fzero;
  mul_one_r     : forall a, fmul a fone = a;
  mul_add_distr : forall a b c, fmul (fadd a b) c = fadd (fmul a c) (fmul b c)
}.

(** A call fails with an exception of a given kind. *)
Definition fails_with {A} (kind : exn -> bool) (r : result A) : Prop :=
  exists e, r = inl e /\ kind e = true.

(** ** The life of an estimator

    A caller constructs an estimator and then trains it, asks it for
    predictions, resets it, and writes into its own arrays, in any order.
    The estimator is [Trained] after a [train] that returned and until the
    next [reset], and [Uninitialized] otherwise. *)
Inductive lifecycle : Type := Uninitialized | Trained.

Inductive action : Type :=
| Train (X : loc) (y : vec)
| Predict (X : mat)
| Reset
| Write (l : loc) (M : mat).

Section Sessions.
Variable T : Type.
Variable train : store -> loc -> vec -> Call T unit.
Variable predict_self : store -> mat -> T -> T.
Variable reset : Call T unit.

Record session : Type := Session {
  heap  : store;
  obj   : T;
  phase : lifecycle
}.

Definition act (s : session) (a : action) : session :=
  match a with
  | Train X y =>
      let o := train (heap s) X y (obj s) in
      Session (heap s) (self_after o)
              (match returned o with
               | inr _ => Trained
               | inl _ => phase s
               end)
  | Predict X => Session (heap s) (predict_self (heap s) X (obj s)) (phase s)
  | Reset => Session (heap s) (self_after (reset (obj s))) Uninitialized
  | Write l M => Session (write_array (heap s) l M) (obj s) (phase s)
  end.

Definition run (actions : list action) (s : session) : session :=
  fold_left act actions s.
End Sessions.

Definition krr_session (solve : LinearSolver) (h : store)
           (kernel : kernel_func) (Lambda : num) (actions : list action)
  : session KRR.t :=
  run (KRR.train solve)
      (fun h X self => self_after (KRR.predict h X self)) KRR.reset
      actions
      (Session h (self_after (KRR.init kernel Lambda)) Uninitialized).

Definition klr_session (solve : LinearSolver) (h : store)
           (kernel : kernel_func) (Lambda tol : num) (max_iter : Z)
           (threshold : num) (actions : list action)
  : session KLR.t :=
  run (KLR.train solve)
      (fun h X self => self_after (KLR.predict h X self)) KLR.reset
      actions
      (Session h (self_after (KLR.init kernel Lambda tol max_iter threshold))
               Uninitialized).
End Specification.

(* ================================================================== *)
(** * Exact rational arithmetic as an instance *)

(** The interface instantiated with the rationals in lowest terms, where
    the results below are evaluated on concrete inputs. [exp] is replaced
    by its (2,2) Pade approximant, which is positive everywhere and exact
    at 0, and [sqrt] by the integer square root at six digits, which is
    exact on squares of integers. *)
Module Rational.
Local Open Scope Qc_scope.

Definition of_Z (z : Z) : Qc := Q2Qc (inject_Z z).

Definition exp (x : Qc) : Qc :=
  (1 + x / of_Z 2 + x * x / of_Z 12) / (1 - x / of_Z 2 + x * x / of_Z 12).

Definition sqrt (x : Qc) : Qc :=
  Q2Qc (Qmake (Z.sqrt (Qnum x * Zpos (Qden x) * 10 ^ 12))
              (Qden x * 10 ^ 6)).

Definition ltb (x y : Qc) : bool :=
  match x ?= y with
  | Lt => true
  | _ => false
  end.

Definition eqb (x y : Qc) : bool := Qeq_bool x y.

#[export] Instance scalar : Scalar := {|
  num := Qc;
  fzero := 0;
  fone := 1;
  fadd := Qcplus;
  fsub := Qcminus;
  fmul := Qcmult;
  fdiv := Qcdiv;
  fneg := Qcopp;
  fexp := exp;
  fsqrt := sqrt;
  flt := ltb;
  fint := fun n => of_Z (Z.of_nat n)
|}.

(** ** A linear solver: Gauss-Jordan elimination

    The rows of the system are the rows of [A], each extended by its
    entry of [b]. *)
Definition row : Type := list Qc.

Definition augment (A : list row) (b : list Qc) : list row :=
  map (fun p => fst p ++ [snd p]) (combine A b).

(** The first row with a non-zero entry in column [c], and the others. *)
Fixpoint pick (c : nat) (rows : list row) : option (row * list row) :=
  match rows with
  | [] => None
  | r :: rs =>
      if eqb (nth c r 0) 0
      then match pick c rs with
           | Some (p, rest) => Some (p, r :: rest)
           | None => None
           end
      else Some (r, rs)
  end.

Definition normalize (c : nat) (p : row) : row :=
  map (fun a => a / nth c p 0) p.

(** [r] minus the multiple of [p] that clears column [c] of [r]. *)
Definition eliminate (c : nat) (p r : row) : row :=
  map (fun q => fst q - nth c r 0 * snd q) (combine r p).

Fixpoint gauss_jordan (columns : list nat) (done todo : list row)
  : option (list row) :=
  match columns with
  | [] => Some done
  | c :: cs =>
      match pick c todo with
      | None => None
      | Some (p, rest) =>
          let p' := normalize c p in
          gauss_jordan cs (map (eliminate c p') done ++ [p'])
                       (map (eliminate c p') rest)
      end
  end.

Definition vec_eqb (x y : list Qc) : bool :=
  Nat.eqb (length x) (length y)
  && forallb (fun p => eqb (fst p) (snd p)) (combine x y).

Definition is_square (A : list row) : bool :=
  forallb (fun r => Nat.eqb (length r) (length A)) A.

(** The solver checks what it found against the system, and reports any
    failure as a singular matrix. *)
Definition solve : LinearSolver :=
  fun A b =>
    if is_square A && Nat.eqb (length b) (length A)
    then match gauss_jordan (seq 0 (length A)) [] (augment A b) with
         | None => throw LinAlgError
         | Some rows =>
             let x := map (fun r => nth (length A) r 0) rows in
             match matvec A x with
             | inr b' => if vec_eqb b' b then ok x else throw LinAlgError
             | inl e => throw LinAlgError
             end
         end
    else throw LinAlgError.

(** The linear kernel [lambda X1, X2: X1 @ X2.T]; [None] has no
    attribute [T]. *)
Definition transpose (M : mat) : mat :=
  map (fun j => col j M) (seq 0 (ncols M)).

Definition linear : kernel_func :=
  fun X1 X2 =>
    match X2 with
    | None => throw (Raised "AttributeError")
    | Some X2 => mmul X1 (transpose X2)
    end.

(** Arrays of integers as rational arrays. *)
Definition column (l : list Z) : vec := map of_Z l.
Definition matrix (l : list (list Z)) : mat := map (map of_Z) l.

(** ** The elimination, for reasoning

    The notions in which the solver is shown to solve every nonsingular
    square system. *)

(** The inner product over the rationals, by cases. *)
Definition qdot (r w : list Qc) : Qc := dot (F := scalar) r w.

(** [r - k p], entry by entry. *)
Definition axpy (k : Qc) (r p : row) : row :=
  map (fun q => fst q - k * snd q) (combine r p).

(** Finite sums, and the inner product as a sum over the columns. *)
Fixpoint sumf (f : nat -> Qc) (k : nat) : Qc :=
  match k with
  | O => 0
  | S k => f O + sumf (fun j => f (S j)) k
  end.

(** ** The vectors that a system sends to zero *)
Definition ann (rows : list row) (w : list Qc) : Prop :=
  Forall (fun r => qdot r w = 0) rows.

(** ** The shape of the system during elimination

    After [c] columns, the [c] rows in [done] carry the identity in those
    columns, and the rows still to do are zero there. *)
Definition delta (i j : nat) : Qc := if Nat.eqb i j then 1 else 0.

Record shape (n c : nat) (done todo : list row) : Prop := Shape {
  sh_done : length done = c;
  sh_len  : Forall (fun r => length r = S n) (done ++ todo);
  sh_unit : forall i j, (i < c)%nat -> (j < c)%nat ->
                        nth j (nth i done []) 0 = delta i j;
  sh_todo : Forall (fun r => forall j, (j < c)%nat -> nth j r 0 = 0) todo
}.

(** ** A vector that the rows so far send to zero

    Column [c] of the rows done, then [-1] at [c], then zeros. *)
Definition probe (c : nat) (done : list row) (j : nat) : Qc :=
  if Nat.ltb j c then nth c (nth j done []) 0
  else if Nat.eqb j c then - (1) else 0.

Definition probe_vec (n c : nat) (done : list row) : list Qc :=
  map (probe c done) (seq 0 (S n)).
End Rational.


(* ================================================================== *)
(** * Concrete callers *)

(** Arrays, estimators and calls over the rationals, on which the results
    below are evaluated. *)
Module Caller.
Import Rational.

(** The caller's arrays, by reference. *)
Definition arrays : store :=
  fun l =>
    match l with
    | 0%nat => matrix [[1]]%Z
    | 1%nat => matrix [[1; 0]; [0; 1]]%Z
    | 2%nat => matrix [[0]]%Z
    | 3%nat => matrix [[-1]; [1]]%Z
    | _ => matrix []%Z
    end.

(** The 2x2 identity, the Gram matrix of the array at reference 1. *)
Definition identity2 : mat := matrix [[1; 0]; [0; 1]]%Z.

Definition half : Qc := Q2Qc (1 # 2).
Definition quarter : Qc := Q2Qc (1 # 4).

(** [KernelRidgeRegression(linear, Lambda)], freshly constructed. *)
Definition ridge (Lambda : Qc) : KRR.t :=
  self_after (KRR.init linear Lambda).

(** [KernelLogisticRegression(linear, Lambda, tol, max_iter, 0.5)],
    freshly constructed. *)
Definition logistic (Lambda tol : Qc) (max_iter : Z) : KLR.t :=
  self_after (KLR.init linear Lambda tol max_iter half).

(** A logistic estimator trained on the one-row array [[1]] with label 1,
    and a ridge estimator trained on the 2x2 identity. *)
Definition fitted_logistic : KLR.t :=
  self_after (KLR.train solve arrays 0 (column [1]%Z)
                        (logistic quarter half 3)).

Definition fitted_ridge : KRR.t :=
  self_after (KRR.train solve arrays 1 (column [3; 4]%Z) (ridge 0%Qc)).

(** A logistic estimator allowed one step, with tolerance 1/2. *)
Definition impatient : KLR.t := logistic quarter half 1.

(** A logistic estimator allowed one step, with tolerance 1. *)
Definition one_step : KLR.t := logistic quarter 1%Qc 1.

Definition fitted_logistic0 : KLR.t :=
  self_after (KLR.train solve arrays 0 (column [1]%Z) (logistic 0%Qc half 3)).

(** The caller doubles, in place, the array it trained the ridge
    estimator on. *)
Definition arrays_after_write : store :=
  write_array arrays 1 (matrix [[2; 0]; [0; 2]]%Z).

(** A caller that trains, resets, and then trains on the singular 1x1
    system [[0]]. *)
Definition calls : list action :=
  [Train 1 (column [3; 4]%Z); Reset; Train 2 (column [1]%Z)].

(** A caller that trains and then trains on the singular system. *)
Definition calls_trained : list action :=
  [Train 1 (column [3; 4]%Z); Train 2 (column [1]%Z)].
End Caller.
(* ================================================================== *)
(** * Lists and arrays: basic facts *)

Section CallFacts.
Variables S A B : Type.

Lemma outcome_eta (o : outcome S A) :
  Outcome (self_after o) (console o) (returned o) = o.
Proof. now destruct o. Qed.

Lemma bind_attr (f : S -> A) (k : A -> Call S B) s :
  bind (attr f) k s = k (f s) s.
Proof. unfold bind, attr. cbn. now destruct (k (f s) s). Qed.

Lemma bind_eval (r : result A) (k : A -> Call S B) s :
  bind (eval r) k s =
  match r with
  | inl e => Outcome s [] (inl e)
  | inr a => k a s
  end.
Proof. unfold bind, eval. destruct r; cbn; [|destruct (k a s)]; reflexivity. Qed.

Lemma bind_assign (f : S -> S) (k : unit -> Call S B) s :
  bind (assign f) k s = k tt (f s).
Proof. unfold bind, assign. cbn. now destruct (k tt (f s)). Qed.

Lemma bind_print line (k : unit -> Call S B) s :
  bind (print line) k s =
  Outcome (self_after (k tt s)) (line :: console (k tt s))
          (returned (k tt s)).
Proof. reflexivity. Qed.

Lemma bind_ret (a : A) (k : A -> Call S B) s :
  bind (ret a) k s = k a s.
Proof. unfold bind, ret. cbn. now destruct (k a s). Qed.
End CallFacts.

Ltac run_call :=
  repeat (rewrite ?bind_attr, ?bind_assign, ?bind_eval, ?bind_ret,
                  ?bind_print; cbn beta).

Section ArrayFacts.
Context {F : Scalar}.

Lemma zipWith_length (f : num -> num -> num) x y :
  length x = length y -> length (zipWith f x y) = length x.
Proof.
  intros E. unfold zipWith. rewrite length_map, length_combine, <- E.
  apply Nat.min_id.
Qed.

Lemma same_length_true x y : same_length x y = true <-> length x = length y.
Proof. unfold same_length. apply Nat.eqb_eq. Qed.

Lemma matvec_ok_inv M a b :
  matvec M a = ok b ->
  Forall (fun r => length r = length a) M /\ b = map (fun r => dot r a) M.
Proof.
  unfold matvec. destruct (forallb _ M) eqn:E; [|discriminate].
  intros [= <-]. split; [|reflexivity].
  rewrite forallb_forall in E. apply Forall_forall. intros r Hr.
  apply same_length_true, E, Hr.
Qed.

Lemma matvec_length M a b : matvec M a = ok b -> length b = length M.
Proof.
  intros H. apply matvec_ok_inv in H as [_ ->]. apply length_map.
Qed.

Lemma eye_shape n : has_shape n n (eye n).
Proof.
  unfold has_shape, eye. split.
  - now rewrite length_map, length_seq.
  - apply Forall_forall. intros r Hr. apply in_map_iff in Hr as [i [<- _]].
    now rewrite length_map, length_seq.
Qed.

Lemma mscale_shape c n k M : has_shape n k M -> has_shape n k (mscale c M).
Proof.
  unfold has_shape, mscale. intros [Hn Hk]. split.
  - now rewrite length_map.
  - apply Forall_forall. intros r Hr. apply in_map_iff in Hr as [r' [<- Hr']].
    rewrite length_map. rewrite Forall_forall in Hk. now apply Hk.
Qed.

(** Adding a matrix of the same shape whose entries are all neutral for
    [+] on the right gives the matrix back. *)
Lemma zipWith_neutral x z :
  length x = length z ->
  Forall (fun e => forall a, fadd a e = a) z ->
  zipWith fadd x z = x.
Proof.
  revert z. induction x as [|a x IH]; intros [|e z]; cbn; try discriminate;
    [reflexivity|].
  intros [= E] Hz. inversion Hz as [|? ? He Hz']; subst.
  unfold zipWith in IH. now rewrite He, IH.
Qed.

Lemma madd_neutral n k A Z :
  has_shape n k A -> has_shape n k Z ->
  Forall (Forall (fun e => forall a, fadd a e = a)) Z ->
  madd A Z = ok A.
Proof.
  intros [HnA HkA] [HnZ HkZ] HZ. subst n.
  assert (E : forall r z, In (r, z) (combine A Z) -> length r = length z).
  { intros r z Hin. rewrite Forall_forall in HkA, HkZ.
    rewrite (HkA r), (HkZ z); eauto using in_combine_l, in_combine_r. }
  unfold madd, same_shape. rewrite HnZ, Nat.eqb_refl. cbn.
  replace (forallb _ (combine A Z)) with true.
  2:{ symmetry. apply forallb_forall. intros [r z] Hin. cbn.
      apply same_length_true. now apply E. }
  f_equal. clear HkA HkZ. revert Z HnZ HZ E.
  induction A as [|r A IH]; intros [|z Z]; cbn [length map combine fst snd];
    try discriminate; [reflexivity|].
  intros [= HnZ] HZ E. inversion HZ as [|? ? Hz HZ']; subst.
  rewrite zipWith_neutral by (auto; apply E; now left).
  f_equal. apply IH; auto. intros r' z' Hin. apply E. now right.
Qed.

Lemma Forall_eye_scaled c n :
  (forall a, fmul c a = c) ->
  Forall (Forall (fun e => e = c)) (mscale c (eye n)).
Proof.
  intros Hc. unfold mscale, eye. apply Forall_forall. intros r Hr.
  apply in_map_iff in Hr as [r' [<- _]]. apply Forall_forall. intros e He.
  apply in_map_iff in He as [e' [<- _]]. apply Hc.
Qed.
End ArrayFacts.


Section ShapeFacts.
Context {F : Scalar}.

Lemma matvec_ok_intro M a :
  Forall (fun r => length r = length a) M ->
  matvec M a = ok (map (fun r => dot r a) M).
Proof.
  intros H. unfold matvec. replace (forallb _ M) with true; [reflexivity|].
  symmetry. apply forallb_forall. rewrite Forall_forall in H.
  intros r Hr. apply same_length_true. now apply H.
Qed.

Lemma madd_shape n k A B C :
  has_shape n k A -> madd A B = ok C -> has_shape n k C.
Proof.
  intros [Hn Hk]. unfold madd, same_shape.
  destruct (Nat.eqb (length A) (length B)) eqn:El; [|discriminate].
  cbn [andb]. destruct (forallb _ (combine A B)) eqn:Er; [|discriminate].
  intros [= <-]. apply Nat.eqb_eq in El. split.
  - rewrite length_map, length_combine, <- El, Nat.min_id. exact Hn.
  - apply Forall_forall. intros c Hc.
    apply in_map_iff in Hc as [[a b] [<- Hin]]. cbn [fst snd].
    rewrite forallb_forall in Er. specialize (Er _ Hin). cbn in Er.
    apply same_length_true in Er. rewrite zipWith_length by exact Er.
    rewrite Forall_forall in Hk. apply Hk. eapply in_combine_l; eauto.
Qed.

Lemma vsub_length x y d : vsub x y = ok d -> length x = length y.
Proof.
  unfold vsub. destruct (same_length x y) eqn:E; [|discriminate].
  intros _. now apply same_length_true.
Qed.

(** A row that is [c] at column [i] and zero elsewhere picks [c] times
    entry [i]. The three laws are those of exact arithmetic. *)
Lemma dot_unit_row c i s v :
  (forall a, fmul fzero a = fzero) ->
  (forall a, fadd fzero a = a) -> (forall a, fadd a fzero = a) ->
  dot (map (fun j => if Nat.eqb i j then c else fzero) (seq s (length v))) v
  = if Nat.leb s i && Nat.ltb i (s + length v)
    then fmul c (nth (i - s) v fzero) else fzero.
Proof.
  intros Hmul Hl Hr. revert s. induction v as [|x v IH]; intros s.
  - cbn [length seq map]. rewrite Nat.add_0_r.
    destruct (Nat.leb_spec s i), (Nat.ltb_spec i s); cbn; auto; lia.
  - cbn [length seq map]. unfold dot, zipWith. cbn [combine map fold_right fst snd].
    fold (zipWith fmul (map (fun j => if Nat.eqb i j then c else fzero)
                            (seq (S s) (length v))) v).
    fold (dot (map (fun j => if Nat.eqb i j then c else fzero)
                   (seq (S s) (length v))) v).
    rewrite IH. destruct (Nat.eqb_spec i s) as [->|Hne].
    + replace (s - s) with 0 by lia. cbn [nth].
      destruct (Nat.leb_spec (S s) s); [lia|]. cbn [andb].
      rewrite Hr. destruct (Nat.leb_spec s s); [|lia].
      destruct (Nat.ltb_spec s (s + S (length v))); [|lia]. reflexivity.
    + rewrite Hmul, Hl.
      replace (s + S (length v)) with (S s + length v) by lia.
      destruct (Nat.leb_spec (S s) i) as [Hge|Hlt].
      * destruct (Nat.leb_spec s i); [|lia]. cbn [andb].
        destruct (Nat.ltb_spec i (S s + length v)); [|reflexivity].
        replace (i - s) with (S (i - S s)) by lia. reflexivity.
      * destruct (Nat.leb_spec s i); [lia|]. reflexivity.
Qed.

Lemma matvec_diag l v :
  (forall a, fmul fzero a = fzero) ->
  (forall a, fadd fzero a = a) -> (forall a, fadd a fzero = a) ->
  length v = length l ->
  matvec (diag l) v = ok (zipWith fmul l v).
Proof.
  intros Hmul Hl Hr Hlen. unfold matvec, diag.
  replace (forallb _ _) with true.
  2:{ symmetry. apply forallb_forall. intros r Hr'.
      apply in_map_iff in Hr' as [i [<- _]]. apply same_length_true.
      now rewrite length_map, length_seq. }
  f_equal. rewrite map_map.
  rewrite map_ext_in with
    (g := fun i => fmul (nth i l fzero) (nth i v fzero)).
  - clear Hmul Hl Hr. revert v Hlen.
    induction l as [|a l IH]; intros [|x v]; cbn [length]; try discriminate;
      [reflexivity|].
    intros [= E]. cbn [seq map nth]. unfold zipWith. cbn [combine map fst snd].
    f_equal. rewrite <- seq_shift, map_map. apply IH. exact E.
  - intros i Hi. apply in_seq in Hi. rewrite <- Hlen.
    rewrite dot_unit_row by assumption.
    destruct (Nat.leb_spec 0 i); [|lia].
    destruct (Nat.ltb_spec i (0 + length v)); [|lia].
    cbn [andb]. now rewrite Nat.sub_0_r.
Qed.
End ShapeFacts.
(* ================================================================== *)
(** * Kernel ridge regression: what a call does *)

Section RidgeFacts.
Context {F : Scalar}.
Variable solve : LinearSolver.

(** [train] in one piece: where it stops, and the attributes it leaves. *)
Lemma krr_train_unfold h X y self :
  KRR.train solve h X y self =
  let self1 := KRR.set_Data (Some X) self in
  match (K <- KRR.Kernel self (h X) (Some (h X)) ;;
         A <- ridge_system (KRR.Lambda self) K ;;
         solve A y)%res with
  | inl e => Outcome self1 [] (inl e)
  | inr a => Outcome (KRR.set_Alpha (Some a) self1) [] (ok tt)
  end.
Proof.
  unfold KRR.train, ridge_system. run_call.
  cbn [KRR.set_Data KRR.Kernel KRR.Lambda].
  destruct (KRR.Kernel self (h X) (Some (h X))) as [e|K]; cbn [rbind];
    [reflexivity|].
  run_call. destruct (madd K _) as [e|A]; cbn [rbind]; [reflexivity|].
  run_call. destruct (solve A y) as [e|a]; reflexivity.
Qed.

Lemma krr_predict_unfold h X self :
  KRR.predict h X self =
  Outcome self []
    (K <- KRR.Kernel self X (deref h (KRR.Data self)) ;;
     KRR.matvec_attr K (KRR.Alpha self))%res.
Proof.
  unfold KRR.predict. run_call.
  destruct (KRR.Kernel self X _) as [e|K]; cbn [rbind]; [reflexivity|].
  run_call. destruct (KRR.matvec_attr K _) as [e|v]; reflexivity.
Qed.

Lemma krr_reset_unfold self :
  KRR.reset self =
  Outcome (KRR.Obj (KRR.Kernel self) None None (KRR.Lambda self)) [] (ok tt).
Proof. reflexivity. Qed.

(** With [Lambda = 0] the ridge system of a square [K] is [K] itself. *)
Lemma ridge_system_zero K :
  (forall a, fmul fzero a = fzero) -> (forall a, fadd a fzero = a) ->
  square K -> ridge_system fzero K = ok K.
Proof.
  intros Hmul Hadd HK. unfold ridge_system. rewrite Hmul.
  apply madd_neutral with (n := length K) (k := length K); auto.
  - apply mscale_shape, eye_shape.
  - eapply Forall_impl; [|apply Forall_eye_scaled, Hmul].
    intros r Hr. eapply Forall_impl; [|apply Hr].
    intros e ->. apply Hadd.
Qed.
End RidgeFacts.


(* ================================================================== *)
(** * The ridge system, row by row *)

Section RidgeAlgebra.
Context {F : Scalar}.
Hypothesis laws : exact_arithmetic.

Lemma add_zero_l a : fadd fzero a = a.
Proof. rewrite (add_comm laws). apply (add_zero_r laws). Qed.

Lemma add_swap a b c d :
  fadd (fadd a b) (fadd c d) = fadd (fadd a c) (fadd b d).
Proof.
  rewrite <- (add_assoc laws a b (fadd c d)).
  rewrite (add_assoc laws b c d), (add_comm laws b c).
  rewrite <- (add_assoc laws c b d). apply (add_assoc laws).
Qed.

Lemma dot_add r z v :
  length r = length z ->
  dot (zipWith fadd r z) v = fadd (dot r v) (dot z v).
Proof.
  revert z v. induction r as [|a r IH]; intros [|b z] v; cbn [length];
    try discriminate.
  - intros _. cbn. symmetry. apply (add_zero_r laws).
  - intros [= E]. destruct v as [|x v].
    + cbn. symmetry. apply (add_zero_r laws).
    + unfold dot, zipWith in *. cbn [combine map fold_right fst snd].
      rewrite (IH z v E), (mul_add_distr laws). apply add_swap.
Qed.

Lemma zipWith_map2 (A B : Type) (f : num -> num -> num)
      (g : A -> num) (k : B -> num) (l : list A) (m : list B) :
  map (fun p => f (g (fst p)) (k (snd p))) (combine l m)
  = zipWith f (map g l) (map k m).
Proof.
  unfold zipWith. revert m. induction l as [|a l IH]; intros [|b m]; cbn;
    auto. now rewrite IH.
Qed.

Lemma map_seq_nth_vec (g : num -> num) (a : vec) :
  map (fun i => g (nth i a fzero)) (seq 0 (length a)) = map g a.
Proof.
  induction a as [|x a IH]; [reflexivity|].
  cbn [length seq map nth]. f_equal. rewrite <- seq_shift, map_map. exact IH.
Qed.

(** A row of [c * np.eye(n)] picks [c] times one entry. *)
Lemma dot_scaled_eye_row c i a :
  i < length a ->
  dot (map (fmul c) (map (fun j => if Nat.eqb i j then fone else fzero)
                         (seq 0 (length a)))) a
  = fmul c (nth i a fzero).
Proof.
  intros Hi. rewrite map_map.
  rewrite map_ext with (g := fun j => if Nat.eqb i j then c else fzero).
  2:{ intros j. destruct (Nat.eqb i j);
        [apply (mul_one_r laws)|apply (mul_zero_r laws)]. }
  rewrite dot_unit_row;
    [|apply (mul_zero_l laws)|apply add_zero_l|apply (add_zero_r laws)].
  destruct (Nat.leb_spec 0 i); [|lia].
  destruct (Nat.ltb_spec i (0 + length a)); [|lia].
  cbn [andb]. now rewrite Nat.sub_0_r.
Qed.

(** [(K + c I) a], entry by entry, is [K a + c a]. *)
Lemma matvec_ridge_system c K A a y :
  has_shape (length a) (length a) K ->
  madd K (mscale c (eye (length a))) = ok A ->
  matvec A a = ok y ->
  y = zipWith fadd (map (fun r => dot r a) K) (map (fmul c) a).
Proof.
  intros [Hn Hk] HA Hy. apply matvec_ok_inv in Hy as [_ ->].
  unfold madd in HA. destruct (same_shape K _); [|discriminate].
  injection HA as <-. rewrite map_map. cbn [fst snd].
  rewrite map_ext_in with
    (g := fun p => fadd (dot (fst p) a) (dot (snd p) a)).
  2:{ intros [r z] Hin. cbn [fst snd]. apply dot_add.
      rewrite Forall_forall in Hk. rewrite (Hk r) by (eapply in_combine_l; eauto).
      apply in_combine_r in Hin. unfold mscale, eye in Hin.
      rewrite map_map in Hin. apply in_map_iff in Hin as [i [<- _]].
      now rewrite !length_map, length_seq. }
  rewrite (zipWith_map2 fadd (fun r => dot r a) (fun z => dot z a)).
  f_equal. unfold mscale, eye. rewrite !map_map.
  rewrite <- (map_seq_nth_vec (fmul c) a). apply map_ext_in.
  intros i Hi. apply in_seq in Hi. apply dot_scaled_eye_row. lia.
Qed.
End RidgeAlgebra.
(* ================================================================== *)
(** * Kernel logistic regression: what a call does *)

Section LogisticFacts.
Context {F : Scalar}.
Variable solve : LinearSolver.

Lemma klr_train_unfold h X y self :
  KLR.train solve h X y self =
  let self1 := KLR.set_Data (Some X) self in
  match (K <- KLR.Kernel self (h X) (Some (h X)) ;; klr_fit solve self K y)%res with
  | inl e => Outcome self1 [] (inl e)
  | inr l =>
      Outcome (KLR.set_Alpha (Some (KLR.alpha_new l)) self1)
              (if klr_warns self l then [KLR.warning (KLR.max_iter self)]
               else [])
              (ok tt)
  end.
Proof.
  unfold KLR.train, klr_fit, klr_warns. run_call.
  cbn [KLR.set_Data KLR.Kernel KLR.Lambda KLR.tol KLR.max_iter].
  destruct (KLR.Kernel self (h X) (Some (h X))) as [e|K]; cbn [rbind];
    [reflexivity|].
  run_call. destruct (KLR.for_loop _ _ _ _ _ _ _ _ _ _) as [e|bound];
    cbn [rbind]; [reflexivity|].
  run_call. destruct (KLR.read_locals bound) as [e|l]; [reflexivity|].
  unfold bind. destruct (_ && _); reflexivity.
Qed.

Lemma klr_predict_unfold h X self :
  KLR.predict h X self =
  Outcome self []
    (K <- KLR.Kernel self X (deref h (KLR.Data self)) ;;
     f <- KLR.matvec_attr K (KLR.Alpha self) ;;
     ok (map (fun f_i =>
                KLR.label (KLR.indicator (KLR.threshold self) (KLR.sigmoid f_i)))
             f))%res.
Proof.
  unfold KLR.predict. run_call.
  destruct (KLR.Kernel self X _) as [e|K]; cbn [rbind]; [reflexivity|].
  run_call. destruct (KLR.matvec_attr K _) as [e|f]; cbn [rbind];
    [reflexivity|].
  run_call. unfold ret. now rewrite !map_map.
Qed.

Lemma klr_reset_unfold self :
  KLR.reset self =
  Outcome (KLR.Obj (KLR.Kernel self) None None (KLR.Lambda self)
                   (KLR.tol self) (KLR.max_iter self) (KLR.threshold self))
          [] (ok tt).
Proof. reflexivity. Qed.

(** A pass through the loop body that returns has found a solution of
    the Newton system of the specification. *)
Lemma body_newton K y Lam a e a' :
  solve_sound solve ->
  KLR.body solve K y Lam (nrows K) (eye (nrows K)) a = ok (e, a') ->
  newton_system K y Lam a a' /\ change a' a e.
Proof.
  intros Hs. unfold KLR.body, KLR.loss.
  destruct (matvec K a) as [?|m] eqn:Em; cbn [rbind]; [discriminate|].
  destruct (vmul y m) as [?|s] eqn:Es; cbn [rbind]; [discriminate|].
  destruct (matvec (diag (map KLR.l2 s)) m) as [?|Wm] eqn:EWm; cbn [rbind];
    [discriminate|].
  destruct (matvec (diag (map KLR.l1 s)) y) as [?|Py] eqn:EPy; cbn [rbind];
    [discriminate|].
  destruct (vsub Wm Py) as [?|z] eqn:Ez; cbn [rbind]; [discriminate|].
  destruct (mmul (diag (map KLR.l2 s)) K) as [?|WK] eqn:EWK; cbn [rbind];
    [discriminate|].
  destruct (madd WK _) as [?|A] eqn:EA; cbn [rbind]; [discriminate|].
  destruct (solve A z) as [?|x] eqn:Ex; cbn [rbind]; [discriminate|].
  destruct (vsub x a) as [?|d] eqn:Ed; cbn [rbind]; [discriminate|].
  intros [= <- <-]. split.
  - exists m, s, Wm, Py, z, WK, A. cbv zeta.
    repeat split; auto.
  - now exists d.
Qed.

(** A loop over at least one step leaves its locals bound. *)
Lemma for_loop_bound K y Lam tl n I steps a bound r :
  KLR.for_loop solve K y Lam tl n I steps a bound = ok r ->
  steps <> [] -> exists l, r = Some l.
Proof.
  revert a bound. induction steps as [|st rest IH]; intros a bound H Hne;
    [congruence|].
  cbn [KLR.for_loop] in H.
  destruct (KLR.body _ _ _ _ _ _ _) as [?|[e a']]; cbn [rbind] in H;
    [discriminate|].
  destruct (flt e tl).
  - injection H as <-. eauto.
  - destruct rest as [|st' rest'].
    + cbn in H. injection H as <-. eauto.
    + eapply IH; [exact H|discriminate].
Qed.

(** The loop carries out the iteration of the specification: it accepts
    what [irls] accepts, with [step] the step it stopped at, the last one
    of the range unless some step met the tolerance. *)
Lemma for_loop_irls K y Lam tl steps a bound l :
  solve_sound solve ->
  KLR.for_loop solve K y Lam tl (nrows K) (eye (nrows K)) steps a bound
  = ok (Some l) ->
  steps <> [] ->
  irls K y Lam tl (length steps) a (KLR.alpha_new l) (verdict_of tl l)
  /\ In (KLR.step l) steps
  /\ (flt (KLR.error l) tl = false -> KLR.step l = last steps 0%Z).
Proof.
  intros Hs. revert a bound.
  induction steps as [|st rest IH]; intros a bound H Hne; [congruence|].
  cbn [KLR.for_loop] in H.
  destruct (KLR.body _ _ _ _ _ _ _) as [?|[e a']] eqn:Eb; cbn [rbind] in H;
    [discriminate|].
  apply body_newton in Eb as [Hn Hc]; auto.
  destruct (flt e tl) eqn:Elt.
  - injection H as <-. unfold verdict_of. cbn [KLR.alpha_new KLR.error KLR.step].
    rewrite Elt. repeat split.
    + eapply irls_stop; eauto.
    + now left.
    + congruence.
  - destruct rest as [|st' rest'].
    + cbn in H. injection H as <-. unfold verdict_of.
      cbn [KLR.alpha_new KLR.error KLR.step length last]. rewrite Elt.
      repeat split.
      * eapply irls_last; eauto.
      * now left.
    + apply IH in H as (Hi & Hin & Hlast); [|discriminate].
      repeat split.
      * eapply irls_next; eauto.
      * now right.
      * intros Hf. rewrite (Hlast Hf). reflexivity.
Qed.

Lemma last_range n : (0 < n)%Z -> last (KLR.range n) 0%Z = (n - 1)%Z.
Proof.
  intros Hn. unfold KLR.range.
  replace (Z.to_nat n) with (S (Z.to_nat (n - 1))) by lia.
  rewrite seq_S, map_app. cbn [map]. rewrite last_last. lia.
Qed.

Lemma range_nil n : KLR.range n = [] <-> (n <= 0)%Z.
Proof.
  unfold KLR.range. split.
  - intros H. apply (f_equal (@length Z)) in H.
    rewrite length_map, length_seq in H. cbn in H. lia.
  - intros H. replace (Z.to_nat n) with 0%nat by lia. reflexivity.
Qed.

Lemma in_range n z : In z (KLR.range n) -> (0 <= z < n)%Z.
Proof.
  unfold KLR.range. intros H. apply in_map_iff in H as [i [<- Hi]].
  apply in_seq in Hi. lia.
Qed.
(** Where the loop stops: at a step of the range, the last one unless the
    tolerance was met. *)
Lemma for_loop_step K y Lam tl n I steps a bound l :
  KLR.for_loop solve K y Lam tl n I steps a bound = ok (Some l) ->
  steps <> [] ->
  In (KLR.step l) steps
  /\ (flt (KLR.error l) tl = false -> KLR.step l = last steps 0%Z).
Proof.
  revert a bound.
  induction steps as [|st rest IH]; intros a bound H Hne; [congruence|].
  cbn [KLR.for_loop] in H.
  destruct (KLR.body _ _ _ _ _ _ _) as [?|[e a']]; cbn [rbind] in H;
    [discriminate|].
  destruct (flt e tl) eqn:Elt.
  - injection H as <-. cbn [KLR.error KLR.step]. split; [now left|congruence].
  - destruct rest as [|st' rest'].
    + cbn in H. injection H as <-. cbn. auto.
    + apply IH in H as (Hin & Hlast); [|discriminate].
      split; [now right|]. intros Hf. rewrite (Hlast Hf). reflexivity.
Qed.

(** When [train] prints its warning: exactly when the budget ran out with
    no step meeting the tolerance and the last change is strictly above
    [tol]. *)
Lemma klr_warns_iff self K y l :
  (forall a b, flt a b = true -> flt b a = false) ->
  klr_fit solve self K y = ok l ->
  klr_warns self l = true <->
  verdict_of (KLR.tol self) l = ExhaustedBudget /\
  flt (KLR.tol self) (KLR.error l) = true.
Proof.
  intros Hasym. unfold klr_fit, klr_warns, verdict_of.
  destruct (KLR.for_loop _ _ _ _ _ _ _ _ _ _) as [e|bound] eqn:El;
    cbn [rbind]; [discriminate|].
  destruct bound as [l'|]; cbn [KLR.read_locals]; [|discriminate].
  intros [= ->].
  assert (Hne : KLR.range (KLR.max_iter self) <> []).
  { intros E. rewrite E in El. discriminate. }
  apply for_loop_step in El as [Hin Hlast]; auto.
  assert (Hpos : (0 < KLR.max_iter self)%Z).
  { apply in_range in Hin. lia. }
  rewrite last_range in Hlast by exact Hpos.
  rewrite andb_true_iff, Z.eqb_eq. split.
  - intros [_ Ht]. split; auto. now rewrite (Hasym _ _ Ht).
  - intros [Hv Ht]. split; auto.
Qed.
(** Every iterate has as many entries as the one before: [alpha_new -
    alpha_old] is only defined then. *)
Lemma body_length K y Lam n I a e a' :
  KLR.body solve K y Lam n I a = ok (e, a') -> length a' = length a.
Proof.
  unfold KLR.body.
  destruct (matvec K a) as [?|m]; cbn [rbind]; [discriminate|].
  destruct (vmul y m) as [?|s]; cbn [rbind]; [discriminate|].
  destruct (KLR.loss s) as [P W].
  destruct (matvec W m) as [?|Wm]; cbn [rbind]; [discriminate|].
  destruct (matvec P y) as [?|Py]; cbn [rbind]; [discriminate|].
  destruct (vsub Wm Py) as [?|z]; cbn [rbind]; [discriminate|].
  destruct (mmul W K) as [?|WK]; cbn [rbind]; [discriminate|].
  destruct (madd WK _) as [?|A]; cbn [rbind]; [discriminate|].
  destruct (solve A z) as [?|x]; cbn [rbind]; [discriminate|].
  destruct (vsub x a) as [?|d] eqn:Ed; cbn [rbind]; [discriminate|].
  intros [= _ <-]. now apply vsub_length in Ed.
Qed.

Lemma for_loop_length K y Lam tl n I steps a bound l :
  KLR.for_loop solve K y Lam tl n I steps a bound = ok (Some l) ->
  steps <> [] -> length (KLR.alpha_new l) = length a.
Proof.
  revert a bound.
  induction steps as [|st rest IH]; intros a bound H Hne; [congruence|].
  cbn [KLR.for_loop] in H.
  destruct (KLR.body _ _ _ _ _ _ _) as [?|[e a']] eqn:Eb; cbn [rbind] in H;
    [discriminate|].
  apply body_length in Eb.
  destruct (flt e tl).
  - injection H as <-. exact Eb.
  - destruct rest as [|st' rest'].
    + cbn in H. injection H as <-. exact Eb.
    + apply IH in H; [|discriminate]. congruence.
Qed.
End LogisticFacts.


(* ================================================================== *)
(** * Sessions: what every sequence of calls keeps *)

Section SessionFacts.
Context {F : Scalar}.
Variable solve : LinearSolver.

(** An invariant of one call is an invariant of every session. *)
Lemma run_invariant (T : Type) train predict_self reset
      (P : session T -> Prop) actions s :
  (forall s a, P s -> P (act train predict_self reset s a)) ->
  P s -> P (run train predict_self reset actions s).
Proof.
  intros Hstep. unfold run. revert s.
  induction actions as [|a actions IH]; intros s Hs; cbn; auto.
Qed.

Lemma run_snoc (T : Type) train predict_self reset actions a (s : session T) :
  run train predict_self reset (actions ++ [a]) s
  = act train predict_self reset (run train predict_self reset actions s) a.
Proof. unfold run. now rewrite fold_left_app. Qed.

(** The attributes that [train] of the ridge estimator leaves. *)
Lemma krr_train_attrs h X y self :
  let o := KRR.train solve h X y self in
  KRR.Kernel (self_after o) = KRR.Kernel self /\
  KRR.Lambda (self_after o) = KRR.Lambda self /\
  KRR.Data (self_after o) = Some X /\
  match returned o with
  | inr _ => exists alpha, KRR.Alpha (self_after o) = Some alpha
  | inl _ => KRR.Alpha (self_after o) = KRR.Alpha self
  end.
Proof.
  rewrite krr_train_unfold. cbv zeta.
  destruct (rbind _ _) as [e|alpha]; cbn; eauto 6.
Qed.

Lemma klr_train_attrs h X y self :
  let o := KLR.train solve h X y self in
  KLR.Kernel (self_after o) = KLR.Kernel self /\
  KLR.Lambda (self_after o) = KLR.Lambda self /\
  KLR.tol (self_after o) = KLR.tol self /\
  KLR.max_iter (self_after o) = KLR.max_iter self /\
  KLR.threshold (self_after o) = KLR.threshold self /\
  KLR.Data (self_after o) = Some X /\
  match returned o with
  | inr _ => exists alpha, KLR.Alpha (self_after o) = Some alpha
  | inl _ => KLR.Alpha (self_after o) = KLR.Alpha self
  end.
Proof.
  rewrite klr_train_unfold. cbv zeta.
  destruct (rbind _ _) as [e|l]; cbn; eauto 10.
Qed.

Lemma krr_predict_self h X self : self_after (KRR.predict h X self) = self.
Proof. now rewrite krr_predict_unfold. Qed.

Lemma klr_predict_self h X self : self_after (KLR.predict h X self) = self.
Proof. now rewrite klr_predict_unfold. Qed.

(** An [Uninitialized] estimator holds no coefficients. *)
Lemma krr_uninitialized_alpha h kernel Lambda actions :
  let s := krr_session solve h kernel Lambda actions in
  phase s = Uninitialized -> KRR.Alpha (obj s) = None.
Proof.
  unfold krr_session.
  apply run_invariant with
      (P := fun s => phase s = Uninitialized -> KRR.Alpha (obj s) = None).
  - intros s [X y|X| |l M] Hs; cbn [act phase obj]; auto.
    + pose proof (krr_train_attrs (heap s) X y (obj s)) as (_ & _ & _ & H).
      cbv zeta in H. destruct (returned _); [|discriminate].
      intros Hp. rewrite H. auto.
    + rewrite krr_predict_self. auto.
  - reflexivity.
Qed.

Lemma klr_uninitialized_alpha h kernel Lambda tol max_iter threshold actions :
  let s := klr_session solve h kernel Lambda tol max_iter threshold actions in
  phase s = Uninitialized -> KLR.Alpha (obj s) = None.
Proof.
  unfold klr_session.
  apply run_invariant with
      (P := fun s => phase s = Uninitialized -> KLR.Alpha (obj s) = None).
  - intros s [X y|X| |l M] Hs; cbn [act phase obj]; auto.
    + pose proof (klr_train_attrs (heap s) X y (obj s))
        as (_ & _ & _ & _ & _ & _ & H).
      cbv zeta in H. destruct (returned _); [|discriminate].
      intros Hp. rewrite H. auto.
    + rewrite klr_predict_self. auto.
  - reflexivity.
Qed.

(** No call changes the configuration. *)
Lemma krr_session_config h kernel Lambda actions :
  let s := krr_session solve h kernel Lambda actions in
  KRR.Kernel (obj s) = kernel /\ KRR.Lambda (obj s) = Lambda.
Proof.
  unfold krr_session.
  apply run_invariant with
      (P := fun s => KRR.Kernel (obj s) = kernel /\
                          KRR.Lambda (obj s) = Lambda).
  - intros s [X y|X| |l M] [Hk Hl]; cbn [act phase obj]; auto.
    + pose proof (krr_train_attrs (heap s) X y (obj s)) as (H1 & H2 & _).
      cbv zeta in H1, H2. rewrite H1, H2. auto.
    + rewrite krr_predict_self. auto.
  - split; reflexivity.
Qed.

Lemma klr_session_config h kernel Lambda tol max_iter threshold actions :
  let s := klr_session solve h kernel Lambda tol max_iter threshold actions in
  KLR.Kernel (obj s) = kernel /\ KLR.Lambda (obj s) = Lambda /\
  KLR.tol (obj s) = tol /\ KLR.max_iter (obj s) = max_iter /\
  KLR.threshold (obj s) = threshold.
Proof.
  unfold klr_session.
  apply run_invariant with
      (P := fun s => KLR.Kernel (obj s) = kernel /\
                          KLR.Lambda (obj s) = Lambda /\
                          KLR.tol (obj s) = tol /\
                          KLR.max_iter (obj s) = max_iter /\
                          KLR.threshold (obj s) = threshold).
  - intros s [X y|X| |l M] (Hk & Hl & Ht & Hm & Hth); cbn [act phase obj];
      auto.
    + pose proof (klr_train_attrs (heap s) X y (obj s))
        as (H1 & H2 & H3 & H4 & H5 & _).
      cbv zeta in H1, H2, H3, H4, H5. rewrite H1, H2, H3, H4, H5. auto.
    + rewrite klr_predict_self. auto.
  - repeat split; reflexivity.
Qed.

(** One [train] keeps the configuration. *)
Lemma configuration_frame_krr h X y (self : KRR.t) :
  KRR.Kernel (self_after (KRR.train solve h X y self)) = KRR.Kernel self /\
  KRR.Lambda (self_after (KRR.train solve h X y self)) = KRR.Lambda self.
Proof.
  pose proof (krr_train_attrs h X y self) as (Hk & Hl & _). auto.
Qed.

Lemma configuration_frame_klr h X y (self : KLR.t) :
  let self' := self_after (KLR.train solve h X y self) in
  KLR.Kernel self' = KLR.Kernel self /\
  KLR.Lambda self' = KLR.Lambda self /\
  KLR.tol self' = KLR.tol self /\
  KLR.max_iter self' = KLR.max_iter self /\
  KLR.threshold self' = KLR.threshold self.
Proof.
  pose proof (klr_train_attrs h X y self) as (Hk & Hl & Ht & Hm & Hth & _).
  cbv zeta in *. auto 10.
Qed.
End SessionFacts.

Section TrainedFacts.
Context {F : Scalar}.
Variable solve : LinearSolver.

(** A [Trained] estimator holds a reference and coefficients. *)
Lemma krr_trained_attrs h kernel Lambda actions :
  let s := krr_session solve h kernel Lambda actions in
  phase s = Trained ->
  (exists D, KRR.Data (obj s) = Some D) /\
  (exists alpha, KRR.Alpha (obj s) = Some alpha).
Proof.
  unfold krr_session.
  apply run_invariant with
      (P := fun s => phase s = Trained ->
                     (exists D, KRR.Data (obj s) = Some D) /\
                     (exists alpha, KRR.Alpha (obj s) = Some alpha)).
  - intros s [X y|X| |l M] Hs; cbn [act phase obj]; auto.
    + pose proof (krr_train_attrs solve (heap s) X y (obj s))
        as (_ & _ & Hd & Ha).
      cbv zeta in Hd, Ha. rewrite Hd. destruct (returned _).
      * intros Hp. split; [eauto|]. rewrite Ha. now apply Hs.
      * intros _. split; eauto.
    + rewrite krr_predict_self. auto.
    + discriminate.
  - discriminate.
Qed.

Lemma klr_trained_attrs h kernel Lambda tol max_iter threshold actions :
  let s := klr_session solve h kernel Lambda tol max_iter threshold actions in
  phase s = Trained ->
  (exists D, KLR.Data (obj s) = Some D) /\
  (exists alpha, KLR.Alpha (obj s) = Some alpha).
Proof.
  unfold klr_session.
  apply run_invariant with
      (P := fun s => phase s = Trained ->
                     (exists D, KLR.Data (obj s) = Some D) /\
                     (exists alpha, KLR.Alpha (obj s) = Some alpha)).
  - intros s [X y|X| |l M] Hs; cbn [act phase obj]; auto.
    + pose proof (klr_train_attrs solve (heap s) X y (obj s))
        as (_ & _ & _ & _ & _ & Hd & Ha).
      cbv zeta in Hd, Ha. rewrite Hd. destruct (returned _).
      * intros Hp. split; [eauto|]. rewrite Ha. now apply Hs.
      * intros _. split; eauto.
    + rewrite klr_predict_self. auto.
    + discriminate.
  - discriminate.
Qed.
End TrainedFacts.
(* ================================================================== *)
(** * The rational instance: the solver keeps the contract *)

Section RationalFacts.
Import Rational.
Local Open Scope Qc_scope.

Lemma eqb_eq (x y : Qc) : eqb x y = true <-> x = y.
Proof.
  unfold eqb. split.
  - intros H. apply Qc_is_canon. now apply Qeq_bool_eq.
  - intros ->. now apply Qeq_eq_bool.
Qed.

Lemma vec_eqb_eq (x y : list Qc) : vec_eqb x y = true <-> x = y.
Proof.
  unfold vec_eqb. split.
  - revert y. induction x as [|a x IH]; intros [|b y]; cbn; try discriminate;
      [reflexivity|].
    intros H. apply andb_prop in H as [Hl H]. apply andb_prop in H as [Hab H].
    apply eqb_eq in Hab as ->. f_equal. apply IH. now rewrite Hl, H.
  - intros ->. rewrite Nat.eqb_refl. cbn. apply forallb_forall.
    intros [a b] Hin. cbn. apply eqb_eq.
    clear -Hin. induction y as [|c y IH]; cbn in Hin; [easy|].
    destruct Hin as [[= -> ->]|Hin]; auto.
Qed.

Lemma mat_eqb_eq (M N : list (list Qc)) :
  Nat.eqb (length M) (length N)
  && forallb (fun p => vec_eqb (fst p) (snd p)) (combine M N) = true ->
  M = N.
Proof.
  revert N. induction M as [|r M IH]; intros [|s N]; cbn; try discriminate;
    [reflexivity|].
  intros H. apply andb_prop in H as [Hl H]. apply andb_prop in H as [Hrs H].
  apply vec_eqb_eq in Hrs as ->. f_equal. apply IH. now rewrite Hl, H.
Qed.

Lemma rational_solve_sound : solve_sound Rational.solve.
Proof.
  intros A b x. unfold Rational.solve.
  destruct (is_square A && _); [|discriminate].
  destruct (gauss_jordan _ _ _) as [rows|]; [|discriminate].
  destruct (matvec A _) as [e|b'] eqn:E; [discriminate|].
  destruct (vec_eqb b' b) eqn:Eb; [|discriminate].
  intros [= <-]. apply vec_eqb_eq in Eb as <-. exact E.
Qed.

Lemma rational_mul_zero (a : Qc) : fmul fzero a = fzero.
Proof. cbn. ring. Qed.

Lemma rational_add_zero (a : Qc) : fadd a fzero = a.
Proof. cbn. ring. Qed.

Lemma rational_zero_add (a : Qc) : fadd fzero a = a.
Proof. cbn. ring. Qed.

Lemma rational_exact : exact_arithmetic (F := Rational.scalar).
Proof. constructor; intros; cbn; ring. Qed.

Lemma rational_lt_asym (a b : Qc) : flt a b = true -> flt b a = false.
Proof.
  cbn. unfold ltb, Qccompare. rewrite <- (Qcompare_antisym a b).
  destruct (a ?= b)%Q; cbn; congruence.
Qed.
End RationalFacts.

(* ================================================================== *)
(** * The caller's arrays *)

Section CallerFacts.
Import Rational.
Local Open Scope Qc_scope.

Lemma gram_identity2 :
  linear (Caller.arrays 1%nat) (Some (Caller.arrays 1%nat)) = ok Caller.identity2.
Proof.
  set (K := match linear (Caller.arrays 1%nat) (Some (Caller.arrays 1%nat)) with
            | inr K => K
            | inl _ => []
            end).
  assert (E : linear (Caller.arrays 1%nat) (Some (Caller.arrays 1%nat)) = ok K)
    by (vm_compute; reflexivity).
  rewrite E. f_equal; try (apply mat_eqb_eq; vm_compute; reflexivity).
Qed.

Lemma identity2_square : square Caller.identity2.
Proof. split; [reflexivity|]. repeat constructor. Qed.

Lemma identity2_nonsingular : nonsingular Caller.identity2.
Proof.
  unfold nonsingular.
  change (forall v : list Qc,
             matvec (F := scalar) Caller.identity2 v
             = ok (zeros (length Caller.identity2)) ->
             v = zeros (length Caller.identity2)).
  intros v. unfold matvec.
  destruct v as [|a [|b [|c v]]]; cbn [forallb Caller.identity2 matrix map
    same_length length Nat.eqb andb]; try discriminate.
  intros H.
  assert (Ha : 1 * a + (0 * b + 0) = 0)
    by exact (f_equal (fun r : result (list Qc) =>
                         match r with inr (x :: _) => x | _ => 0 end) H).
  assert (Hb : 0 * a + (1 * b + 0) = 0)
    by exact (f_equal (fun r : result (list Qc) =>
                         match r with inr (_ :: x :: _) => x | _ => 0 end) H).
  assert (Ea : a = 0) by (rewrite <- Ha; ring).
  assert (Eb : b = 0) by (rewrite <- Hb; ring).
  now rewrite Ea, Eb.
Qed.
End CallerFacts.

(* ================================================================== *)
(** * The rational instance: elimination solves nonsingular systems *)

Section EliminationFacts.
Import Rational.
Local Open Scope Qc_scope.

Lemma qdot_nil_l w : qdot [] w = 0.
Proof. reflexivity. Qed.

Lemma qdot_nil_r r : qdot r [] = 0.
Proof. now destruct r. Qed.

Lemma qdot_cons a r b w : qdot (a :: r) (b :: w) = a * b + qdot r w.
Proof. reflexivity. Qed.

Lemma qdot_app r1 r2 w1 w2 :
  length r1 = length w1 ->
  qdot (r1 ++ r2) (w1 ++ w2) = qdot r1 w1 + qdot r2 w2.
Proof.
  revert w1. induction r1 as [|a r1 IH]; intros [|b w1]; cbn [length app];
    try discriminate.
  - intros _. rewrite qdot_nil_l. ring.
  - intros [= E]. rewrite !qdot_cons, IH by exact E. ring.
Qed.

Lemma eliminate_axpy c p r : eliminate c p r = axpy (nth c r 0) r p.
Proof. reflexivity. Qed.

Lemma axpy_length k r p : length r = length p -> length (axpy k r p) = length r.
Proof.
  intros E. unfold axpy. rewrite length_map, length_combine, <- E.
  apply Nat.min_id.
Qed.

Lemma axpy_nth k r p j :
  length r = length p -> nth j (axpy k r p) 0 = nth j r 0 - k * nth j p 0.
Proof.
  revert p j. induction r as [|a r IH]; intros [|b p] j; cbn [length];
    try discriminate.
  - intros _. destruct j; cbn; ring.
  - intros [= E]. destruct j as [|j]; [reflexivity|]. cbn [axpy combine map nth].
    apply IH. exact E.
Qed.

Lemma axpy_dot k r p w :
  length r = length p -> qdot r w = qdot (axpy k r p) w + k * qdot p w.
Proof.
  revert p w. induction r as [|a r IH]; intros [|b p] w; cbn [length];
    try discriminate.
  - intros _. cbn [axpy combine map]. rewrite !qdot_nil_l. ring.
  - intros [= E]. destruct w as [|x w].
    + rewrite !qdot_nil_r. ring.
    + cbn [axpy combine map fst snd]. rewrite !qdot_cons.
      rewrite (IH p w E). unfold axpy. ring.
Qed.

Lemma normalize_length c p : length (normalize c p) = length p.
Proof. apply length_map. Qed.

Lemma normalize_nth c p j : nth j (normalize c p) 0 = nth j p 0 / nth c p 0.
Proof.
  unfold normalize. generalize (nth c p 0) as q. intros q.
  revert j. induction p as [|a p IH]; intros [|j]; cbn [map nth]; auto;
    unfold Qcdiv; ring.
Qed.

Lemma normalize_dot c p w :
  nth c p 0 <> 0 -> qdot p w = nth c p 0 * qdot (normalize c p) w.
Proof.
  unfold normalize. generalize (nth c p 0) as q. intros q Hq.
  revert w. induction p as [|a p IH]; intros [|x w]; cbn [map];
    rewrite ?qdot_nil_l, ?qdot_nil_r; try ring.
  rewrite !qdot_cons, IH. field. exact Hq.
Qed.

Lemma sumf_ext f g k :
  (forall j, (j < k)%nat -> f j = g j) -> sumf f k = sumf g k.
Proof.
  revert f g. induction k as [|k IH]; intros f g H; cbn; [reflexivity|].
  rewrite (H O) by lia. f_equal. apply IH. intros j Hj. apply H. lia.
Qed.

Lemma sumf_zero f k : (forall j, (j < k)%nat -> f j = 0) -> sumf f k = 0.
Proof.
  revert f. induction k as [|k IH]; intros f H; cbn; [reflexivity|].
  rewrite (H O) by lia. rewrite IH; [ring|]. intros j Hj. apply H. lia.
Qed.

Lemma sumf_add f g k :
  sumf (fun j => f j + g j) k = sumf f k + sumf g k.
Proof.
  revert f g. induction k as [|k IH]; intros f g; cbn; [ring|].
  rewrite IH. ring.
Qed.

Lemma sumf_delta a i k :
  (i < k)%nat -> sumf (fun j => if Nat.eqb j i then a else 0) k = a.
Proof.
  revert i. induction k as [|k IH]; intros i Hi; [lia|]. cbn [sumf].
  destruct i as [|i].
  - cbn [Nat.eqb]. rewrite sumf_zero; [ring|]. reflexivity.
  - cbn [Nat.eqb]. rewrite IH by lia. ring.
Qed.

Lemma qdot_sum r w :
  length r = length w ->
  qdot r w = sumf (fun j => nth j r 0 * nth j w 0) (length r).
Proof.
  revert w. induction r as [|a r IH]; intros [|b w]; cbn [length];
    try discriminate; [reflexivity|].
  intros [= E]. rewrite qdot_cons, (IH w E). reflexivity.
Qed.

(** ** Choosing a pivot *)
Lemma pick_some c rows p rest :
  pick c rows = Some (p, rest) ->
  nth c p 0 <> 0 /\ Permutation rows (p :: rest).
Proof.
  revert p rest. induction rows as [|r rows IH]; intros p rest; cbn [pick];
    [discriminate|].
  destruct (eqb (nth c r 0) 0) eqn:E.
  - destruct (pick c rows) as [[p' rest']|]; [|discriminate].
    intros [= <- <-]. destruct (IH p' rest' eq_refl) as [Hp Hperm]. split; auto.
    rewrite Hperm. apply perm_swap.
  - intros [= <- <-]. split; [|reflexivity].
    intros H. apply eqb_eq in H. congruence.
Qed.

Lemma pick_none c rows :
  pick c rows = None -> Forall (fun r => nth c r 0 = 0) rows.
Proof.
  induction rows as [|r rows IH]; cbn [pick]; intros H; [constructor|].
  destruct (eqb (nth c r 0) 0) eqn:E; [|discriminate].
  destruct (pick c rows) as [[p' rest']|]; [discriminate|].
  constructor; [now apply eqb_eq|auto].
Qed.

(** One elimination step keeps every vector that the new rows send to
    zero. *)
Lemma step_back c p rows w :
  nth c p 0 <> 0 ->
  Forall (fun r => length r = length p) rows ->
  qdot (normalize c p) w = 0 ->
  ann (map (eliminate c (normalize c p)) rows) w ->
  qdot p w = 0 /\ ann rows w.
Proof.
  intros Hp Hlen Hp' Hrows. split.
  - rewrite (normalize_dot c p w Hp), Hp'. ring.
  - unfold ann in *. rewrite Forall_map in Hrows.
    rewrite Forall_forall in *. intros r Hr.
    rewrite (axpy_dot (nth c r 0) r (normalize c p) w).
    + rewrite <- eliminate_axpy, (Hrows r Hr), Hp'. ring.
    + rewrite normalize_length. auto.
Qed.

Lemma nth_map_in (A B : Type) (f : A -> B) l i d d' :
  (i < length l)%nat -> nth i (map f l) d' = f (nth i l d).
Proof.
  intros Hi. rewrite (nth_indep _ d' (f d)) by now rewrite length_map.
  apply map_nth.
Qed.

(** The entries of a row after elimination against the normalized pivot
    row [p], in the columns up to the pivot's. *)
Lemma eliminate_entry n c p r j :
  length p = S n -> length r = S n -> nth c p 0 <> 0 ->
  (forall j', (j' < c)%nat -> nth j' p 0 = 0) ->
  (j <= c)%nat ->
  nth j (eliminate c (normalize c p) r) 0
  = if Nat.eqb j c then 0 else nth j r 0.
Proof.
  intros Hp Hr Hpc Hzero Hj.
  rewrite eliminate_axpy, axpy_nth by now rewrite normalize_length, Hp, Hr.
  rewrite normalize_nth. destruct (Nat.eqb_spec j c) as [->|Hne].
  - field. exact Hpc.
  - rewrite (Hzero j) by lia. field. exact Hpc.
Qed.

Lemma normalize_entry c p j :
  nth c p 0 <> 0 ->
  (forall j', (j' < c)%nat -> nth j' p 0 = 0) ->
  (j <= c)%nat ->
  nth j (normalize c p) 0 = delta c j.
Proof.
  intros Hpc Hzero Hj. rewrite normalize_nth. unfold delta.
  destruct (Nat.eqb_spec c j) as [<-|Hne].
  - field. exact Hpc.
  - rewrite (Hzero j) by lia. field. exact Hpc.
Qed.

Lemma shape_step n c done todo p rest :
  shape n c done todo ->
  pick c todo = Some (p, rest) ->
  shape n (S c)
        (map (eliminate c (normalize c p)) done ++ [normalize c p])
        (map (eliminate c (normalize c p)) rest).
Proof.
  intros [Hd Hlen Hunit Htodo] Hpick. subst c.
  apply pick_some in Hpick as [Hpc Hperm].
  apply Forall_app in Hlen as [Hlen_done Hlen_todo].
  rewrite Hperm in Hlen_todo, Htodo.
  inversion Hlen_todo as [|? ? Hp Hlen_rest]; subst.
  inversion Htodo as [|? ? Hzero Hrest]; subst.
  set (c := length done) in *.
  assert (Hel : forall r, length r = S n ->
                          length (eliminate c (normalize c p) r) = S n).
  { intros r Hr. rewrite eliminate_axpy, axpy_length; auto.
    now rewrite normalize_length, Hp. }
  constructor.
  - rewrite length_app, length_map. cbn. lia.
  - rewrite Forall_app. split; [rewrite Forall_app; split|].
    + rewrite Forall_map. eapply Forall_impl; [|exact Hlen_done]. auto.
    + constructor; [|constructor]. now rewrite normalize_length.
    + rewrite Forall_map. eapply Forall_impl; [|exact Hlen_rest]. auto.
  - intros i j Hi Hj. destruct (Nat.eq_dec i c) as [->|Hne].
    + rewrite app_nth2 by (rewrite length_map; lia).
      rewrite length_map. fold c. rewrite Nat.sub_diag. cbn [nth].
      apply normalize_entry; auto. lia.
    + rewrite app_nth1 by (rewrite length_map; lia).
      rewrite (@nth_map_in row row (eliminate c (normalize c p)) done i [] [])
        by lia.
      rewrite (eliminate_entry (n := n)); auto; try lia.
      * unfold delta. destruct (Nat.eqb_spec j c) as [->|Hj'].
        -- destruct (Nat.eqb_spec i c); [lia|reflexivity].
        -- rewrite Hunit by lia. reflexivity.
      * rewrite Forall_forall in Hlen_done. apply Hlen_done, nth_In. lia.
  - rewrite Forall_map. rewrite Forall_forall in *. intros r Hr j Hj.
    rewrite (eliminate_entry (n := n)); auto; try lia.
    destruct (Nat.eqb_spec j c); [reflexivity|].
    apply (Hrest r Hr). lia.
Qed.

Lemma probe_vec_length n c done : length (probe_vec n c done) = S n.
Proof. unfold probe_vec. now rewrite length_map, length_seq. Qed.

Lemma probe_vec_nth n c done j :
  (j < S n)%nat -> nth j (probe_vec n c done) 0 = probe c done j.
Proof.
  intros Hj. unfold probe_vec.
  rewrite (@nth_map_in nat Qc (probe c done) (seq 0 (S n)) j O 0)
    by now rewrite length_seq.
  now rewrite seq_nth.
Qed.

Lemma probe_done n c done todo :
  shape n c done todo -> (c <= n)%nat -> ann done (probe_vec n c done).
Proof.
  intros [Hd Hlen Hunit _] Hc. apply Forall_app in Hlen as [Hlen _].
  unfold ann. rewrite Forall_forall in *. intros r Hr.
  destruct (In_nth _ _ [] Hr) as (i & Hi & <-). unfold row in *.
  set (u := nth c (nth i done []) 0).
  rewrite qdot_sum by now rewrite probe_vec_length, Hlen.
  rewrite (Hlen _ Hr).
  rewrite sumf_ext with
    (g := fun j => (if Nat.eqb j i then u else 0)
                   + (if Nat.eqb j c then - u else 0)).
  - rewrite sumf_add.
    rewrite (@sumf_delta u i (S n)) by lia.
    rewrite (@sumf_delta (- u) c (S n)) by lia. ring.
  - intros j Hj. rewrite probe_vec_nth by exact Hj. unfold probe.
    destruct (Nat.ltb_spec j c) as [Hlt|Hge].
    + rewrite Hunit by lia. unfold delta.
      destruct (Nat.eqb_spec j c); [lia|].
      rewrite (Nat.eqb_sym i j). destruct (Nat.eqb_spec j i) as [->|_].
      * unfold u, row. ring.
      * ring.
    + destruct (Nat.eqb_spec j c) as [->|Hne].
      * destruct (Nat.eqb_spec c i); [lia|]. unfold u, row. ring.
      * destruct (Nat.eqb_spec j i); [lia|]. ring.
Qed.

Lemma probe_todo n c done todo :
  shape n c done todo ->
  Forall (fun r => nth c r 0 = 0) todo ->
  ann todo (probe_vec n c done).
Proof.
  intros [Hd Hlen _ Htodo] Hzero. apply Forall_app in Hlen as [_ Hlen].
  unfold ann. rewrite Forall_forall in *. intros r Hr.
  rewrite qdot_sum by now rewrite probe_vec_length, Hlen.
  rewrite (Hlen _ Hr). apply sumf_zero. intros j Hj.
  rewrite probe_vec_nth by exact Hj. unfold probe.
  destruct (Nat.ltb_spec j c) as [Hlt|Hge].
  - rewrite (Htodo r Hr j Hlt). ring.
  - destruct (Nat.eqb_spec j c) as [->|Hne].
    + rewrite (Hzero r Hr). ring.
    + ring.
Qed.

Lemma minus_one_nonzero : - (1) <> 0.
Proof. intros H. apply (f_equal this) in H. discriminate. Qed.

(** ** Elimination succeeds on a system with a trivial null space *)
Lemma gauss_jordan_complete n rows0 :
  (forall w, length w = S n -> nth n w 0 = 0 -> ann rows0 w ->
             forall j, (j < n)%nat -> nth j w 0 = 0) ->
  forall k c done todo,
    (c + k = n)%nat -> length todo = k -> shape n c done todo ->
    (forall w, ann (done ++ todo) w -> ann rows0 w) ->
    exists rows,
      gauss_jordan (seq c k) done todo = Some rows /\
      shape n n rows [] /\
      (forall w, ann rows w -> ann rows0 w).
Proof.
  intros Hns. induction k as [|k IH]; intros c done todo Hck Hk Hsh Hback.
  - destruct todo; [|discriminate]. cbn [seq gauss_jordan].
    assert (c = n) by lia. subst c. exists done.
    rewrite app_nil_r in Hback.
    split; [reflexivity|]. split; [exact Hsh|exact Hback].
  - cbn [seq gauss_jordan]. destruct (pick c todo) as [[p rest]|] eqn:Hpick.
    + pose proof (shape_step Hsh Hpick) as Hsh'.
      destruct Hsh as [_ Hlen _ _].
      apply pick_some in Hpick as [Hpc Hperm].
      apply IH; auto; try lia.
      * apply Permutation_length in Hperm. cbn in Hperm.
        rewrite length_map. lia.
      * intros w Hw. apply Hback.
        unfold ann in Hw. rewrite <- app_assoc in Hw.
        apply Forall_app in Hw as [Hdone Hw].
        apply Forall_app in Hw as [Hp' Hrest].
        pose proof (Forall_inv Hp') as Hp'0. cbv beta in Hp'0.
        assert (Hall : ann (map (eliminate c (normalize c p)) (done ++ rest)) w).
        { unfold ann. rewrite map_app. apply Forall_app. auto. }
        assert (Hl : Forall (fun r => length r = length p) (done ++ rest)).
        { apply Forall_app in Hlen as [Hl1 Hl2]. rewrite Hperm in Hl2.
          pose proof (Forall_inv Hl2) as Hp. cbv beta in Hp.
          pose proof (Forall_inv_tail Hl2) as Hl3.
          apply Forall_app. split; eapply Forall_impl; eauto; cbn; congruence. }
        destruct (@step_back c p (done ++ rest) w Hpc Hl Hp'0 Hall)
          as [Hpw Hrows].
        unfold ann in *. apply Forall_app in Hrows as [Hr1 Hr2].
        apply Forall_app. split; [exact Hr1|]. rewrite Hperm. auto.
    + exfalso. apply pick_none in Hpick.
      assert (Hw : ann rows0 (probe_vec n c done)).
      { apply Hback. apply Forall_app. split.
        - apply (probe_done Hsh). lia.
        - apply (probe_todo Hsh Hpick). }
      assert (Hc : nth c (probe_vec n c done) 0 = 0).
      { apply Hns; auto; try lia.
        - apply probe_vec_length.
        - rewrite probe_vec_nth by lia. unfold probe.
          destruct (Nat.ltb_spec n c); [lia|].
          destruct (Nat.eqb_spec n c); [lia|reflexivity]. }
      rewrite probe_vec_nth in Hc by lia. unfold probe in Hc.
      rewrite Nat.ltb_irrefl, Nat.eqb_refl in Hc.
      exact (minus_one_nonzero Hc).
Qed.

(** ** From the augmented system back to [A x = b] *)
Lemma ann_augment A b v t :
  length A = length b ->
  Forall (fun r => length r = length v) A ->
  ann (augment A b) (v ++ [t]) ->
  map (fun r => qdot r v) A = map (fun b_i => - (b_i * t)) b.
Proof.
  revert b. induction A as [|r A IH]; intros [|b_i b]; cbn [length];
    try discriminate; [reflexivity|].
  intros [= E] Hlen Hann. unfold augment in Hann. cbn [combine map fst snd] in Hann.
  pose proof (Forall_inv Hann) as H0. cbv beta in H0.
  pose proof (Forall_inv_tail Hann) as H1.
  pose proof (Forall_inv Hlen) as L0. cbv beta in L0.
  pose proof (Forall_inv_tail Hlen) as L1.
  cbn [map]. f_equal.
  - rewrite qdot_app in H0 by exact L0. rewrite qdot_cons, qdot_nil_l in H0.
    replace (qdot r v) with (qdot r v + (b_i * t + 0) - b_i * t) by ring.
    rewrite H0. ring.
  - apply IH; auto.
Qed.

Lemma split_last (w : list Qc) n :
  length w = S n ->
  exists v t, w = v ++ [t] /\ length v = n /\ t = nth n w 0.
Proof.
  intros Hw. destruct (@exists_last _ w) as (v & t & ->).
  { intros ->. discriminate. }
  rewrite length_app in Hw. cbn in Hw.
  exists v, t. split; [reflexivity|]. split; [lia|].
  rewrite app_nth2 by lia. replace (n - length v)%nat with O by lia.
  reflexivity.
Qed.

Lemma map_seq_nth (B : Type) (g : row -> B) (rows : list row) :
  map (fun j => g (nth j rows [])) (seq 0 (length rows)) = map g rows.
Proof.
  induction rows as [|r rows IH]; [reflexivity|].
  cbn [length seq map nth]. f_equal.
  rewrite <- seq_shift, map_map. exact IH.
Qed.

Lemma matvec_rows (A : list row) (v : list Qc) :
  Forall (fun r => length r = length v) A ->
  matvec (F := scalar) A v = ok (map (fun r => qdot r v) A).
Proof.
  intros H. unfold matvec.
  replace (forallb _ A) with true; [reflexivity|].
  symmetry. apply forallb_forall. rewrite Forall_forall in H.
  intros r Hr. apply Nat.eqb_eq. now apply H.
Qed.

Lemma solve_ok (A : mat (F := scalar)) (b : vec (F := scalar)) rows :
  is_square A = true ->
  Nat.eqb (length b) (length A) = true ->
  gauss_jordan (seq 0 (length A)) [] (augment A b) = Some rows ->
  matvec A (map (fun r => nth (length A) r 0) rows) = ok b ->
  Rational.solve A b = ok (map (fun r => nth (length A) r 0) rows).
Proof.
  intros H1 H2 H3 H4. unfold Rational.solve.
  rewrite H1, H2. cbn [andb]. rewrite H3, H4. unfold ok.
  replace (vec_eqb b b) with true; [reflexivity|].
  symmetry. now apply vec_eqb_eq.
Qed.

Lemma gauss_jordan_solves (A : list (list Qc)) (b : list Qc) :
  Forall (fun r => length r = length A) A ->
  (forall v : list Qc,
      matvec (F := scalar) A v = ok (repeat 0 (length A)) ->
      v = repeat 0 (length A)) ->
  length b = length A ->
  exists x, Rational.solve A b = ok x.
Proof.
  intros Hsq Hns Hb. set (n := length A) in *.
  assert (Hrows0 : Forall (fun r => length r = S n) (augment A b)).
  { unfold augment. rewrite Forall_map. apply Forall_forall.
    intros [r b_i] Hin. cbn [fst snd]. rewrite length_app. cbn.
    apply in_combine_l in Hin. rewrite Forall_forall in Hsq.
    rewrite (Hsq r Hin). lia. }
  assert (Hlen0 : length (augment A b) = n).
  { unfold augment. rewrite length_map, length_combine.
    fold n. rewrite Hb. apply Nat.min_id. }
  assert (Hsh0 : shape n 0 [] (augment A b)).
  { constructor; auto.
    - intros i j Hi. lia.
    - apply Forall_forall. intros r _ j Hj. lia. }
  assert (Htriv : forall w, length w = S n -> nth n w 0 = 0 ->
                            ann (augment A b) w ->
                            forall j, (j < n)%nat -> nth j w 0 = 0).
  { intros w Hw Hlast Hann j Hj.
    destruct (@split_last w n Hw) as (v & t & -> & Hv & Ht).
    rewrite Hlast in Ht. subst t.
    apply ann_augment in Hann; [|now rewrite Hb|now rewrite Hv].
    assert (Hz : v = repeat 0 n).
    { apply Hns. rewrite matvec_rows by now rewrite Hv.
      rewrite Hann. f_equal. rewrite <- Hb.
      clear. induction b as [|b_i b IH]; [reflexivity|].
      cbn [map length repeat]. f_equal; [ring|exact IH]. }
    rewrite app_nth1 by lia. rewrite Hz.
    apply nth_repeat. }
  destruct (gauss_jordan_complete Htriv (k := n) (c := 0) (done := [])
              (todo := augment A b)) as (rows & Egj & Hsh & Hback);
    auto.
  set (x := map (fun r : row => nth n r 0) rows).
  assert (Hx : length x = n).
  { unfold x. rewrite length_map. apply (sh_done Hsh). }
  assert (Hsol : matvec (F := scalar) A x = ok b).
  { rewrite matvec_rows by now rewrite Hx. f_equal.
    assert (Hp : ann rows (probe_vec n n rows)).
    { apply (probe_done Hsh). lia. }
    assert (Epv : probe_vec n n rows = x ++ [- (1)]).
    { unfold probe_vec. rewrite seq_S, map_app. cbn [map Nat.add]. f_equal.
      - unfold x. rewrite <- (map_seq_nth (fun r => nth n r 0) rows).
        rewrite (sh_done Hsh). apply map_ext_in. intros j Hj.
        apply in_seq in Hj. unfold probe.
        destruct (Nat.ltb_spec j n); [reflexivity|lia].
      - unfold probe. rewrite Nat.ltb_irrefl, Nat.eqb_refl. reflexivity. }
    rewrite Epv in Hp. apply Hback in Hp.
    apply ann_augment in Hp; [|now rewrite Hb|now rewrite Hx].
    rewrite Hp. rewrite <- (map_id b) at 2. apply map_ext. intros b_i. ring. }
  exists x. apply solve_ok; auto.
  - unfold is_square. apply forallb_forall.
    rewrite Forall_forall in Hsq. intros r Hr. apply Nat.eqb_eq.
    now apply Hsq.
  - apply Nat.eqb_eq. exact Hb.
Qed.

Lemma rational_solve_complete : solve_complete Rational.solve.
Proof.
  intros A b [_ Hsq] Hns Hb. apply gauss_jordan_solves; auto.
Qed.
End EliminationFacts.

(* ================================================================== *)
(** * Training the ridge estimator *)

(** C2. After a [train(X, y)] of the ridge estimator that returned, the
    stored [Alpha] solves [(K + Lambda*n*I) Alpha = y] for
    [K = Kernel(X, X)], and the stored [Data] is [X]. *)
Theorem krr_train_solves {F : Scalar} (solve : LinearSolver) h X y self :
  solve_sound solve ->
  returned (KRR.train solve h X y self) = ok tt ->
  let self' := self_after (KRR.train solve h X y self) in
  exists K A alpha,
    KRR.Kernel self (h X) (Some (h X)) = ok K /\
    ridge_system (KRR.Lambda self) K = ok A /\
    KRR.Alpha self' = Some alpha /\
    matvec A alpha = ok y /\
    KRR.Data self' = Some X /\
    deref h (KRR.Data self') = Some (h X).
Proof.
  intros Hs. rewrite krr_train_unfold. cbv zeta.
  destruct (KRR.Kernel self (h X) (Some (h X))) as [e|K] eqn:EK; cbn [rbind];
    [discriminate|].
  destruct (ridge_system (KRR.Lambda self) K) as [e|A] eqn:EA; cbn [rbind];
    [discriminate|].
  destruct (solve A y) as [e|alpha] eqn:E; [discriminate|].
  intros _. exists K, A, alpha.
  repeat split; try reflexivity; auto.
Qed.

Lemma krr_train_solves_witness :
  returned (KRR.train Rational.solve Caller.arrays 1
                      (Rational.column [3; 4]%Z) (Caller.ridge Caller.half))
  = ok tt
  /\ exists K A alpha,
       Rational.linear (Caller.arrays 1) (Some (Caller.arrays 1))
       = ok K /\
       ridge_system (F := Rational.scalar) Caller.half K = ok A /\
       KRR.Alpha (self_after
                    (KRR.train Rational.solve Caller.arrays 1
                               (Rational.column [3; 4]%Z)
                               (Caller.ridge Caller.half)))
       = Some alpha /\
       matvec A alpha = ok (Rational.column [3; 4]%Z) /\
       KRR.Data (self_after
                   (KRR.train Rational.solve Caller.arrays 1
                              (Rational.column [3; 4]%Z)
                              (Caller.ridge Caller.half)))
       = Some 1 /\
       deref Caller.arrays
             (KRR.Data (self_after
                          (KRR.train Rational.solve Caller.arrays 1
                                     (Rational.column [3; 4]%Z)
                                     (Caller.ridge Caller.half))))
       = Some (Caller.arrays 1).
Proof.
  split; [vm_compute; reflexivity|].
  apply (@krr_train_solves Rational.scalar Rational.solve Caller.arrays 1
           (Rational.column [3; 4]%Z) (Caller.ridge Caller.half)
           rational_solve_sound).
  vm_compute; reflexivity.
Defined.

(* ================================================================== *)
(** * Training the logistic estimator *)

(** C1. A [train(X, y)] of the logistic estimator that returned has run
    the iteration of the specification: from [Alpha_0 = 0] of length [n],
    each step solves the Newton system [(W.K + Lambda.n.I) Alpha_t1 = z]
    built from [m = K.Alpha_t], [s = y (.) m], [P = diag(l1)],
    [W = diag(l2)] and [z = W.m - P.y]; it stops at the first step whose
    change in norm is below [tol], goes on otherwise for at most [max_iter]
    steps, and stores the iterate it stopped at. *)
Theorem klr_train_irls {F : Scalar} (solve : LinearSolver) h X y self :
  solve_sound solve ->
  returned (KLR.train solve h X y self) = ok tt ->
  exists K alpha v,
    KLR.Kernel self (h X) (Some (h X)) = ok K /\
    KLR.Alpha (self_after (KLR.train solve h X y self)) = Some alpha /\
    irls K y (KLR.Lambda self) (KLR.tol self)
         (Z.to_nat (KLR.max_iter self)) (zeros (nrows K)) alpha v.
Proof.
  intros Hs. rewrite klr_train_unfold. cbv zeta. unfold klr_fit.
  destruct (KLR.Kernel self (h X) (Some (h X))) as [e|K] eqn:EK; cbn [rbind];
    [discriminate|].
  destruct (KLR.for_loop _ _ _ _ _ _ _ _ _ _) as [e|bound] eqn:El;
    cbn [rbind]; [discriminate|].
  destruct bound as [l|]; cbn [KLR.read_locals]; [|discriminate].
  intros _. exists K, (KLR.alpha_new l), (verdict_of (KLR.tol self) l).
  assert (Hne : KLR.range (KLR.max_iter self) <> []).
  { intros E. rewrite E in El. discriminate. }
  apply for_loop_irls in El as (Hi & _ & _); auto.
  unfold KLR.range in Hi. rewrite length_map, length_seq in Hi.
  repeat split; auto.
Qed.

Lemma klr_train_irls_witness :
  returned (KLR.train Rational.solve Caller.arrays 0
                      (Rational.column [1]%Z)
                      (Caller.logistic Caller.quarter Caller.half 3))
  = ok tt
  /\ exists K alpha v,
       Rational.linear (Caller.arrays 0) (Some (Caller.arrays 0)) = ok K /\
       KLR.Alpha (self_after
                    (KLR.train Rational.solve Caller.arrays 0
                               (Rational.column [1]%Z)
                               (Caller.logistic Caller.quarter Caller.half 3)))
       = Some alpha /\
       irls (F := Rational.scalar) K (Rational.column [1]%Z)
            Caller.quarter Caller.half 3 (zeros (nrows K)) alpha v.
Proof.
  split; [vm_compute; reflexivity|].
  apply (@klr_train_irls Rational.scalar Rational.solve Caller.arrays 0
           (Rational.column [1]%Z)
           (Caller.logistic Caller.quarter Caller.half 3)
           rational_solve_sound).
  vm_compute; reflexivity.
Defined.

(* ================================================================== *)
(** * Predicting with the logistic estimator *)

(** C4. On a trained logistic estimator, [predict(X_new)] computes
    [f = Kernel(X_new, Data).Alpha] and [p = 1/(1 + exp(-f))] and returns,
    per row, [+1] where [p > threshold] and [-1] otherwise; and whatever
    the estimator and the input, every entry of a returned prediction is
    [-1] or [+1]. *)
Theorem klr_predict_labels {F : Scalar} h X_new (self : KLR.t) :
  (forall D alpha K' f,
      KLR.Data self = Some D ->
      KLR.Alpha self = Some alpha ->
      KLR.Kernel self X_new (Some (h D)) = ok K' ->
      matvec K' alpha = ok f ->
      returned (KLR.predict h X_new self)
      = ok (map (fun f_i =>
                   let p := fdiv fone (fadd fone (fexp (fneg f_i))) in
                   if flt (KLR.threshold self) p then 1%Z else (-1)%Z)
                f))
  /\ (forall out,
         returned (KLR.predict h X_new self) = ok out ->
         Forall (fun v => v = 1%Z \/ v = (-1)%Z) out).
Proof.
  rewrite klr_predict_unfold. cbn [returned]. split.
  - intros D alpha K' f HD Ha HK Hf. rewrite HD, Ha. cbn [deref option_map].
    rewrite HK. cbn [rbind ok KLR.matvec_attr]. rewrite Hf. cbn [rbind ok].
    unfold ok. f_equal. apply map_ext. intros f_i.
    unfold KLR.label, KLR.indicator, KLR.sigmoid. cbv zeta.
    now destruct (flt _ _).
  - intros out.
    destruct (KLR.Kernel self X_new _) as [e|K']; cbn [rbind];
      [discriminate|].
    destruct (KLR.matvec_attr K' _) as [e|f]; cbn [rbind]; [discriminate|].
    intros [= <-]. apply Forall_forall. intros v Hv.
    apply in_map_iff in Hv as [f_i [<- _]].
    unfold KLR.label, KLR.indicator. destruct (flt _ _); cbn; auto.
Qed.

Lemma klr_predict_labels_witness :
  exists D alpha K' f,
    KLR.Data Caller.fitted_logistic = Some D /\
    KLR.Alpha Caller.fitted_logistic = Some alpha /\
    Rational.linear (Caller.arrays 3) (Some (Caller.arrays D)) = ok K' /\
    matvec K' alpha = ok f /\
    returned (KLR.predict Caller.arrays (Caller.arrays 3)
                          Caller.fitted_logistic)
    = ok (map (fun f_i =>
                 if @flt Rational.scalar Caller.half
                         (fdiv fone (fadd fone (fexp (fneg f_i))))
                 then 1%Z else (-1)%Z)
              f) /\
    returned (KLR.predict Caller.arrays (Caller.arrays 3)
                          Caller.fitted_logistic)
    = ok [-1; 1]%Z /\
    Forall (fun v => v = 1%Z \/ v = (-1)%Z) [-1; 1]%Z.
Proof.
  destruct (@klr_predict_labels Rational.scalar Caller.arrays
              (Caller.arrays 3) Caller.fitted_logistic) as [HA HB].
  set (D := 0).
  set (alpha := match KLR.Alpha Caller.fitted_logistic with
                | Some a => a
                | None => []
                end).
  set (K' := match Rational.linear (Caller.arrays 3) (Some (Caller.arrays D))
             with
             | inr K => K
             | inl _ => []
             end).
  set (f := match matvec K' alpha with inr f => f | inl _ => [] end).
  assert (H1 : KLR.Data Caller.fitted_logistic = Some D)
    by (vm_compute; reflexivity).
  assert (H2 : KLR.Alpha Caller.fitted_logistic = Some alpha)
    by (vm_compute; reflexivity).
  assert (H3 : Rational.linear (Caller.arrays 3) (Some (Caller.arrays D))
               = ok K') by (vm_compute; reflexivity).
  assert (H4 : matvec K' alpha = ok f) by (vm_compute; reflexivity).
  assert (H5 : returned (KLR.predict Caller.arrays (Caller.arrays 3)
                                     Caller.fitted_logistic)
               = ok [-1; 1]%Z) by (vm_compute; reflexivity).
  exists D, alpha, K', f.
  split; [exact H1|]. split; [exact H2|]. split; [exact H3|].
  split; [exact H4|]. split; [exact (HA D alpha K' f H1 H2 H3 H4)|].
  split; [exact H5|exact (HB _ H5)].
Defined.

(* ================================================================== *)
(** * Construction *)

(** C8, as the code has it. Constructing either estimator never fails: for
    every kernel and every value of the hyperparameters, valid or not, it
    returns an estimator that stores exactly those values, with [Data] and
    [Alpha] unset, after printing the banner. *)
Theorem construction_never_fails {F : Scalar}
        (kernel : kernel_func) (Lambda tol : num) (max_iter : Z)
        (threshold : num) :
  let r := KRR.init kernel Lambda in
  let l := KLR.init kernel Lambda tol max_iter threshold in
  (returned r = ok tt /\
   ~ fails_with is_ConfigError (returned r) /\
   self_after r = KRR.Obj kernel None None Lambda /\
   console r = ["Kernel Ridge Regression"%string]) /\
  (returned l = ok tt /\
   ~ fails_with is_ConfigError (returned l) /\
   self_after l = KLR.Obj kernel None None Lambda tol max_iter threshold /\
   console l = ["Kernel Logistic Regression"%string]).
Proof.
  cbv zeta. repeat split; intros [e [H _]]; discriminate.
Qed.

(** C8 as stated fails: a negative [Lambda], and for the logistic
    estimator also [tol = 0], [max_iter = 0] and [threshold = 2], are
    accepted: the constructor prints its banner and returns. *)
Lemma invalid_hyperparameters_accepted :
  console (KRR.init Rational.linear (Rational.of_Z (-1)))
  = ["Kernel Ridge Regression"%string] /\
  console (KLR.init Rational.linear (Rational.of_Z (-1)) (Rational.of_Z 0)
                    0 (Rational.of_Z 2))
  = ["Kernel Logistic Regression"%string] /\
  returned (KRR.init Rational.linear (Rational.of_Z (-1))) = ok tt /\
  ~ fails_with is_ConfigError
      (returned (KRR.init Rational.linear (Rational.of_Z (-1)))) /\
  returned (KLR.init Rational.linear (Rational.of_Z (-1)) (Rational.of_Z 0)
                     0 (Rational.of_Z 2)) = ok tt /\
  ~ fails_with is_ConfigError
      (returned (KLR.init Rational.linear (Rational.of_Z (-1))
                          (Rational.of_Z 0) 0 (Rational.of_Z 2))).
Proof.
  repeat split; try (intros [e [H _]]; discriminate).
Qed.

(* ================================================================== *)
(** * The configuration is never written *)

(** C10. Whatever the caller does after constructing an estimator
    (training, predicting, resetting, writing into its own arrays), the
    kernel, [Lambda] and, for the logistic estimator, [tol], [max_iter] and
    [threshold] are those given at construction. Of the calls, [predict]
    changes no attribute, [reset] sets [Data] and [Alpha] to [None], and
    [train] sets [Data] to [X] and, when it returns, [Alpha] to the
    coefficients it found. *)
Theorem configuration_is_fixed {F : Scalar} (solve : LinearSolver)
        (h : store) (kernel : kernel_func) (Lambda tol : num) (max_iter : Z)
        (threshold : num) (actions : list action) :
  let r := krr_session solve h kernel Lambda actions in
  let l := klr_session solve h kernel Lambda tol max_iter threshold actions in
  (KRR.Kernel (obj r) = kernel /\ KRR.Lambda (obj r) = Lambda) /\
  (KLR.Kernel (obj l) = kernel /\ KLR.Lambda (obj l) = Lambda /\
   KLR.tol (obj l) = tol /\ KLR.max_iter (obj l) = max_iter /\
   KLR.threshold (obj l) = threshold) /\
  (forall h X (self : KRR.t), self_after (KRR.predict h X self) = self) /\
  (forall h X (self : KLR.t), self_after (KLR.predict h X self) = self) /\
  (forall self : KRR.t,
      self_after (KRR.reset self)
      = KRR.Obj (KRR.Kernel self) None None (KRR.Lambda self)) /\
  (forall self : KLR.t,
      self_after (KLR.reset self)
      = KLR.Obj (KLR.Kernel self) None None (KLR.Lambda self) (KLR.tol self)
                (KLR.max_iter self) (KLR.threshold self)) /\
  (forall h X y (self : KRR.t),
      let o := KRR.train solve h X y self in
      KRR.Kernel (self_after o) = KRR.Kernel self /\
      KRR.Lambda (self_after o) = KRR.Lambda self /\
      KRR.Data (self_after o) = Some X /\
      match returned o with
      | inr _ => exists alpha, KRR.Alpha (self_after o) = Some alpha
      | inl _ => KRR.Alpha (self_after o) = KRR.Alpha self
      end) /\
  (forall h X y (self : KLR.t),
      let o := KLR.train solve h X y self in
      KLR.Kernel (self_after o) = KLR.Kernel self /\
      KLR.Lambda (self_after o) = KLR.Lambda self /\
      KLR.tol (self_after o) = KLR.tol self /\
      KLR.max_iter (self_after o) = KLR.max_iter self /\
      KLR.threshold (self_after o) = KLR.threshold self /\
      KLR.Data (self_after o) = Some X /\
      match returned o with
      | inr _ => exists alpha, KLR.Alpha (self_after o) = Some alpha
      | inl _ => KLR.Alpha (self_after o) = KLR.Alpha self
      end).
Proof.
  cbv zeta. split; [apply krr_session_config|].
  split; [apply klr_session_config|].
  split; [apply krr_predict_self|]. split; [apply klr_predict_self|].
  split; [reflexivity|]. split; [reflexivity|].
  split; [apply krr_train_attrs|apply klr_train_attrs].
Qed.

(* ================================================================== *)
(** * Predicting before training *)

(** C5, as the code has it. While an estimator is [Uninitialized] (no
    [train] has returned since it was constructed or last reset),
    [predict] raises: either the kernel function itself raises on the
    [Data] it is handed, or numpy rejects the [None] held by [Alpha] as an
    operand of [@]. Neither class raises an exception of its own. *)
Theorem predict_uninitialized_raises {F : Scalar} (solve : LinearSolver)
        (h : store) (kernel : kernel_func) (Lambda tol : num) (max_iter : Z)
        (threshold : num) (actions : list action) (X : mat) :
  let r := krr_session solve h kernel Lambda actions in
  let l := klr_session solve h kernel Lambda tol max_iter threshold actions in
  (phase r = Uninitialized ->
   exists e,
     returned (KRR.predict (heap r) X (obj r)) = inl e /\
     (kernel X (deref (heap r) (KRR.Data (obj r))) = inl e \/
      e = OperandError)) /\
  (phase l = Uninitialized ->
   exists e,
     returned (KLR.predict (heap l) X (obj l)) = inl e /\
     (kernel X (deref (heap l) (KLR.Data (obj l))) = inl e \/
      e = OperandError)).
Proof.
  cbv zeta. split; intros Hp.
  - pose proof (krr_uninitialized_alpha solve h kernel Lambda actions) as Ha.
    pose proof (krr_session_config solve h kernel Lambda actions) as [Hk _].
    cbv zeta in Ha, Hk. rewrite krr_predict_unfold. cbn [returned].
    rewrite (Ha Hp), Hk.
    destruct (kernel X _) as [e|K]; cbn; eauto.
  - pose proof (klr_uninitialized_alpha solve h kernel Lambda tol max_iter
                  threshold actions) as Ha.
    pose proof (klr_session_config solve h kernel Lambda tol max_iter
                  threshold actions) as [Hk _].
    cbv zeta in Ha, Hk. rewrite klr_predict_unfold. cbn [returned].
    rewrite (Ha Hp), Hk.
    destruct (kernel X _) as [e|K]; cbn; eauto.
Qed.

Lemma predict_uninitialized_raises_witness :
  (phase (krr_session Rational.solve Caller.arrays Rational.linear
                      (Rational.of_Z 0) Caller.calls) = Uninitialized /\
   exists e,
     returned (KRR.predict
                 (heap (krr_session Rational.solve Caller.arrays
                                    Rational.linear (Rational.of_Z 0)
                                    Caller.calls))
                 (Caller.arrays 0)
                 (obj (krr_session Rational.solve Caller.arrays
                                   Rational.linear (Rational.of_Z 0)
                                   Caller.calls))) = inl e /\
     (Rational.linear (Caller.arrays 0)
        (deref (heap (krr_session Rational.solve Caller.arrays
                                  Rational.linear (Rational.of_Z 0)
                                  Caller.calls))
               (KRR.Data (obj (krr_session Rational.solve Caller.arrays
                                           Rational.linear (Rational.of_Z 0)
                                           Caller.calls)))) = inl e \/
      e = OperandError)) /\
  (phase (klr_session Rational.solve Caller.arrays Rational.linear
                      (Rational.of_Z 0) Caller.half 3 Caller.half
                      Caller.calls) = Uninitialized /\
   exists e,
     returned (KLR.predict
                 (heap (klr_session Rational.solve Caller.arrays
                                    Rational.linear (Rational.of_Z 0)
                                    Caller.half 3 Caller.half Caller.calls))
                 (Caller.arrays 0)
                 (obj (klr_session Rational.solve Caller.arrays
                                   Rational.linear (Rational.of_Z 0)
                                   Caller.half 3 Caller.half Caller.calls)))
     = inl e /\
     (Rational.linear (Caller.arrays 0)
        (deref (heap (klr_session Rational.solve Caller.arrays
                                  Rational.linear (Rational.of_Z 0)
                                  Caller.half 3 Caller.half Caller.calls))
               (KLR.Data (obj (klr_session Rational.solve Caller.arrays
                                           Rational.linear (Rational.of_Z 0)
                                           Caller.half 3 Caller.half
                                           Caller.calls)))) = inl e \/
      e = OperandError)).
Proof.
  destruct (@predict_uninitialized_raises Rational.scalar Rational.solve
              Caller.arrays Rational.linear (Rational.of_Z 0) Caller.half 3
              Caller.half Caller.calls (Caller.arrays 0)) as [Hr Hl].
  assert (Pr : phase (krr_session Rational.solve Caller.arrays Rational.linear
                                  (Rational.of_Z 0) Caller.calls)
               = Uninitialized) by (vm_compute; reflexivity).
  assert (Pl : phase (klr_session Rational.solve Caller.arrays Rational.linear
                                  (Rational.of_Z 0) Caller.half 3 Caller.half
                                  Caller.calls)
               = Uninitialized) by (vm_compute; reflexivity).
  split.
  - split; [exact Pr|exact (Hr Pr)].
  - split; [exact Pl|exact (Hl Pl)].
Defined.

(** C5 as stated fails: on a freshly constructed ridge estimator with the
    linear kernel, [predict] ends in the [AttributeError] of [None.T], and
    on a logistic estimator that was trained and then reset, likewise;
    neither is a [NotTrainedError]. *)
Lemma predict_untrained_not_NotTrainedError :
  returned (KRR.predict Caller.arrays (Caller.arrays 0)
                        (Caller.ridge (Rational.of_Z 0)))
  = inl (Raised "AttributeError") /\
  ~ fails_with is_NotTrainedError
      (returned (KRR.predict Caller.arrays (Caller.arrays 0)
                             (Caller.ridge (Rational.of_Z 0)))) /\
  ~ fails_with is_NotTrainedError
      (returned (KLR.predict Caller.arrays (Caller.arrays 0)
                             (self_after
                                (KLR.reset Caller.fitted_logistic)))).
Proof.
  split; [reflexivity|]. split.
  - intros [e [H He]]. vm_compute in H. injection H as <-. discriminate.
  - intros [e [H He]]. vm_compute in H. injection H as <-. discriminate.
Qed.

(* ================================================================== *)
(** * A train that fails *)

(** C6, as the code has it. [train] assigns [self.Data = X] before it
    computes anything, so when it then fails (the kernel raises, shapes do
    not fit, the solve is singular, the loop binds no local), [Data] holds
    the [X] of the failed call, while [Alpha] and the configuration are as
    they were before it. *)
Theorem failed_train_keeps_alpha {F : Scalar} (solve : LinearSolver)
        (h : store) (X : loc) (y : vec) (r : KRR.t) (l : KLR.t) (e e' : exn) :
  (returned (KRR.train solve h X y r) = inl e ->
   let r' := self_after (KRR.train solve h X y r) in
   KRR.Alpha r' = KRR.Alpha r /\ KRR.Data r' = Some X /\
   KRR.Kernel r' = KRR.Kernel r /\ KRR.Lambda r' = KRR.Lambda r) /\
  (returned (KLR.train solve h X y l) = inl e' ->
   let l' := self_after (KLR.train solve h X y l) in
   KLR.Alpha l' = KLR.Alpha l /\ KLR.Data l' = Some X /\
   KLR.Kernel l' = KLR.Kernel l /\ KLR.Lambda l' = KLR.Lambda l /\
   KLR.tol l' = KLR.tol l /\ KLR.max_iter l' = KLR.max_iter l /\
   KLR.threshold l' = KLR.threshold l).
Proof.
  split; intros H; cbv zeta.
  - pose proof (krr_train_attrs solve h X y r) as (Hk & Hl & Hd & Ha).
    cbv zeta in Hk, Hl, Hd, Ha. rewrite H in Ha. auto.
  - pose proof (klr_train_attrs solve h X y l)
      as (Hk & Hl & Ht & Hm & Hth & Hd & Ha).
    cbv zeta in Hk, Hl, Ht, Hm, Hth, Hd, Ha. rewrite H in Ha. auto 10.
Qed.

Lemma failed_train_keeps_alpha_witness :
  (returned (KRR.train Rational.solve Caller.arrays 2
                       (Rational.column [1]%Z) Caller.fitted_ridge)
   = inl LinAlgError /\
   KRR.Alpha (self_after
                (KRR.train Rational.solve Caller.arrays 2
                           (Rational.column [1]%Z) Caller.fitted_ridge))
   = KRR.Alpha Caller.fitted_ridge /\
   KRR.Data (self_after
               (KRR.train Rational.solve Caller.arrays 2
                          (Rational.column [1]%Z) Caller.fitted_ridge))
   = Some 2) /\
  (returned (KLR.train Rational.solve Caller.arrays 2
                       (Rational.column [1]%Z) Caller.fitted_logistic0)
   = inl LinAlgError /\
   KLR.Alpha (self_after
                (KLR.train Rational.solve Caller.arrays 2
                           (Rational.column [1]%Z) Caller.fitted_logistic0))
   = KLR.Alpha Caller.fitted_logistic0 /\
   KLR.Data (self_after
               (KLR.train Rational.solve Caller.arrays 2
                          (Rational.column [1]%Z) Caller.fitted_logistic0))
   = Some 2).
Proof.
  destruct (@failed_train_keeps_alpha Rational.scalar Rational.solve
              Caller.arrays 2 (Rational.column [1]%Z) Caller.fitted_ridge
              Caller.fitted_logistic0 LinAlgError LinAlgError) as [Hr Hl].
  assert (Er : returned (KRR.train Rational.solve Caller.arrays 2
                                   (Rational.column [1]%Z)
                                   Caller.fitted_ridge)
               = inl LinAlgError) by (vm_compute; reflexivity).
  assert (El : returned (KLR.train Rational.solve Caller.arrays 2
                                   (Rational.column [1]%Z)
                                   Caller.fitted_logistic0)
               = inl LinAlgError) by (vm_compute; reflexivity).
  split.
  - split; [exact Er|]. destruct (Hr Er) as (Ha & Hd & _). now split.
  - split; [exact El|]. destruct (Hl El) as (Ha & Hd & _). now split.
Defined.

(** C6 as stated fails: the ridge estimator trained on the array at
    reference 1 and then trained on the singular system at reference 2
    raises [LinAlgError], and its [Data] has become reference 2; it is
    paired with the [Alpha] of the first training. *)
Lemma failed_train_overwrites_data :
  returned (KRR.train Rational.solve Caller.arrays 2
                      (Rational.column [1]%Z) Caller.fitted_ridge)
  = inl LinAlgError /\
  KRR.Data Caller.fitted_ridge = Some 1 /\
  KRR.Data (self_after
              (KRR.train Rational.solve Caller.arrays 2
                         (Rational.column [1]%Z) Caller.fitted_ridge))
  = Some 2 /\
  KRR.Data (self_after
              (KRR.train Rational.solve Caller.arrays 2
                         (Rational.column [1]%Z) Caller.fitted_ridge))
  <> KRR.Data Caller.fitted_ridge /\
  KRR.Alpha Caller.fitted_ridge <> None /\
  KRR.Alpha (self_after
               (KRR.train Rational.solve Caller.arrays 2
                          (Rational.column [1]%Z) Caller.fitted_ridge))
  = KRR.Alpha Caller.fitted_ridge.
Proof.
  split; [vm_compute; reflexivity|]. split; [reflexivity|].
  split; [reflexivity|]. split; [discriminate|].
  split; [vm_compute; discriminate|].
  destruct (krr_train_attrs Rational.solve Caller.arrays 2
              (Rational.column [1]%Z) Caller.fitted_ridge) as (_ & _ & _ & H).
  assert (E : returned (KRR.train Rational.solve Caller.arrays 2
                                  (Rational.column [1]%Z) Caller.fitted_ridge)
              = inl LinAlgError) by (vm_compute; reflexivity).
  rewrite E in H. exact H.
Qed.

(* ================================================================== *)
(** * The training array is shared with the caller *)

(** C9, as the code has it. After a [train(X, y)] that returned, [Data] is
    the reference [X] the caller passed, not a copy: in whatever state
    [h'] the caller's arrays are later, [Data] denotes the current contents
    of [X], and [predict] evaluates the kernel against those contents. *)
Theorem train_keeps_reference {F : Scalar} (solve : LinearSolver)
        (h h' : store) (X : loc) (y : vec) (X_new : mat)
        (r : KRR.t) (l : KLR.t) :
  (returned (KRR.train solve h X y r) = ok tt ->
   let r' := self_after (KRR.train solve h X y r) in
   KRR.Data r' = Some X /\
   deref h' (KRR.Data r') = Some (h' X) /\
   returned (KRR.predict h' X_new r')
   = (K <- KRR.Kernel r X_new (Some (h' X)) ;;
      KRR.matvec_attr K (KRR.Alpha r'))%res) /\
  (returned (KLR.train solve h X y l) = ok tt ->
   let l' := self_after (KLR.train solve h X y l) in
   KLR.Data l' = Some X /\
   deref h' (KLR.Data l') = Some (h' X) /\
   returned (KLR.predict h' X_new l')
   = (K <- KLR.Kernel l X_new (Some (h' X)) ;;
      f <- KLR.matvec_attr K (KLR.Alpha l') ;;
      ok (map (fun f_i =>
                 KLR.label (KLR.indicator (KLR.threshold l)
                                          (KLR.sigmoid f_i)))
              f))%res).
Proof.
  split; intros _; cbv zeta.
  - pose proof (krr_train_attrs solve h X y r) as (Hk & _ & Hd & _).
    cbv zeta in Hk, Hd. rewrite krr_predict_unfold. cbn [returned].
    rewrite Hd, Hk. auto.
  - pose proof (klr_train_attrs solve h X y l)
      as (Hk & _ & _ & _ & Hth & Hd & _).
    cbv zeta in Hk, Hth, Hd. rewrite klr_predict_unfold. cbn [returned].
    rewrite Hd, Hk, Hth. auto.
Qed.

Lemma train_keeps_reference_witness :
  (returned (KRR.train Rational.solve Caller.arrays 1
                       (Rational.column [3; 4]%Z)
                       (Caller.ridge (Rational.of_Z 0))) = ok tt /\
   deref Caller.arrays_after_write (KRR.Data Caller.fitted_ridge)
   = Some (Caller.arrays_after_write 1)) /\
  (returned (KLR.train Rational.solve Caller.arrays 0
                       (Rational.column [1]%Z)
                       (Caller.logistic Caller.quarter Caller.half 3))
   = ok tt /\
   deref Caller.arrays_after_write (KLR.Data Caller.fitted_logistic)
   = Some (Caller.arrays_after_write 0)).
Proof.
  destruct (@train_keeps_reference Rational.scalar Rational.solve
              Caller.arrays Caller.arrays_after_write 1
              (Rational.column [3; 4]%Z) (Caller.arrays 1)
              (Caller.ridge (Rational.of_Z 0))
              (Caller.logistic Caller.quarter Caller.half 3)) as [Hr _].
  destruct (@train_keeps_reference Rational.scalar Rational.solve
              Caller.arrays Caller.arrays_after_write 0
              (Rational.column [1]%Z) (Caller.arrays 1)
              (Caller.ridge (Rational.of_Z 0))
              (Caller.logistic Caller.quarter Caller.half 3)) as [_ Hl].
  assert (Er : returned (KRR.train Rational.solve Caller.arrays 1
                                   (Rational.column [3; 4]%Z)
                                   (Caller.ridge (Rational.of_Z 0)))
               = ok tt) by (vm_compute; reflexivity).
  assert (El : returned (KLR.train Rational.solve Caller.arrays 0
                                   (Rational.column [1]%Z)
                                   (Caller.logistic Caller.quarter
                                                    Caller.half 3))
               = ok tt) by (vm_compute; reflexivity).
  split.
  - split; [exact Er|]. exact (proj1 (proj2 (Hr Er))).
  - split; [exact El|]. exact (proj1 (proj2 (Hl El))).
Defined.

(** C9 as stated fails: the ridge estimator was trained on the identity
    at reference 1; once the caller has doubled that array in place, the
    estimator's [Data] denotes the doubled array and the same [predict]
    call returns other values. *)
Lemma caller_write_reaches_data :
  deref Caller.arrays_after_write (KRR.Data Caller.fitted_ridge)
  <> deref Caller.arrays (KRR.Data Caller.fitted_ridge) /\
  returned (KRR.predict Caller.arrays_after_write (Caller.arrays 1)
                        Caller.fitted_ridge)
  <> returned (KRR.predict Caller.arrays (Caller.arrays 1)
                           Caller.fitted_ridge).
Proof.
  split; intros H.
  - apply (f_equal (fun d => match d with
                             | Some ((a :: _) :: _) => Qnum (this a)
                             | _ => 0%Z
                             end)) in H.
    vm_compute in H. discriminate.
  - apply (f_equal (fun r => match r with
                             | inr (a :: _) => Qnum (this a)
                             | _ => 0%Z
                             end)) in H.
    vm_compute in H. discriminate.
Qed.

(* ================================================================== *)
(** * The convergence warning *)

(** C3, where the code departs from it. With [Lambda = 1/4], [tol = 1] and
    [max_iter = 1] on the one-row training set [[1]] with label 1, the
    only step allowed moves [Alpha] from 0 to 1: its change, 1, is not
    below [tol], so no step met the tolerance and the budget is exhausted;
    the step is accepted and stored, and no warning is printed, because
    the test after the loop asks for [error > tol]. *)
Theorem klr_no_warning_at_tolerance :
  let self := Caller.one_step in
  let y := Rational.column [1]%Z in
  let o := KLR.train Rational.solve Caller.arrays 0 y self in
  returned o = ok tt /\
  console o = [] /\
  exists K l,
    Rational.linear (Caller.arrays 0) (Some (Caller.arrays 0)) = ok K /\
    klr_fit Rational.solve self K y = ok l /\
    KLR.step l = (KLR.max_iter self - 1)%Z /\
    flt (KLR.error l) (KLR.tol self) = false /\
    flt (KLR.tol self) (KLR.error l) = false /\
    verdict_of (KLR.tol self) l = ExhaustedBudget /\
    KLR.Alpha (self_after o) = Some (KLR.alpha_new l) /\
    KLR.alpha_new l = Rational.column [1]%Z.
Proof.
  cbv zeta. split; [vm_compute; reflexivity|].
  split; [vm_compute; reflexivity|].
  set (K := match Rational.linear (Caller.arrays 0) (Some (Caller.arrays 0))
            with inr K => K | inl _ => [] end).
  set (l := match klr_fit Rational.solve Caller.one_step K
                          (Rational.column [1]%Z)
            with inr l => l | inl _ => KLR.Locals 0 fzero [] end).
  exists K, l.
  split; [vm_compute; reflexivity|].
  split.
  { assert (Hfit : match klr_fit Rational.solve Caller.one_step K
                                 (Rational.column [1]%Z)
                   with inr _ => true | inl _ => false end = true)
      by (vm_compute; reflexivity).
    unfold l. destruct (klr_fit _ _ _ _) as [e|l0]; [discriminate|].
    reflexivity. }
  split; [vm_compute; reflexivity|]. split; [vm_compute; reflexivity|].
  split; [vm_compute; reflexivity|]. split; [vm_compute; reflexivity|].
  split; [vm_compute; reflexivity|].
  apply vec_eqb_eq. vm_compute. reflexivity.
Qed.

(* ================================================================== *)
(** * The ridge estimator without regularization *)

(** C7. With [Lambda = 0] and an invertible Gram matrix [K = Kernel(X, X)]
    (square, with a trivial null space), [train(X, y)] on targets of the
    size of [K] returns, the stored [Alpha] solves [K Alpha = y], and
    [predict] on the training data returns [K Alpha], which is [y].
    [np.linalg.solve] is taken with its contract: what it returns solves
    the system, and it solves every nonsingular square system. *)
Theorem krr_round_trip {F : Scalar} (solve : LinearSolver) h X y self K :
  solve_sound solve -> solve_complete solve ->
  (forall a, fmul fzero a = fzero) -> (forall a, fadd a fzero = a) ->
  KRR.Lambda self = fzero ->
  KRR.Kernel self (h X) (Some (h X)) = ok K ->
  square K -> nonsingular K -> length y = length K ->
  let o := KRR.train solve h X y self in
  exists alpha,
    returned o = ok tt /\
    KRR.Alpha (self_after o) = Some alpha /\
    matvec K alpha = ok y /\
    returned (KRR.predict h (h X) (self_after o)) = matvec K alpha /\
    returned (KRR.predict h (h X) (self_after o)) = ok y.
Proof.
  intros Hsound Hcomplete Hmul Hadd HLam HK Hsq Hns Hy. cbv zeta.
  destruct (Hcomplete K y Hsq Hns Hy) as [alpha Halpha].
  pose proof (Hsound K y alpha Halpha) as Hsolves.
  assert (Htrain : KRR.train solve h X y self
                   = Outcome (KRR.set_Alpha (Some alpha)
                                            (KRR.set_Data (Some X) self))
                             [] (ok tt)).
  { rewrite krr_train_unfold. cbv zeta. rewrite HK. cbn [rbind ok].
    rewrite HLam, (ridge_system_zero Hmul Hadd Hsq). cbn [rbind ok].
    now rewrite Halpha. }
  rewrite Htrain. cbn [returned self_after]. exists alpha.
  split; [reflexivity|]. split; [reflexivity|]. split; [exact Hsolves|].
  rewrite krr_predict_unfold.
  cbn [returned KRR.set_Alpha KRR.set_Data KRR.Kernel KRR.Data KRR.Alpha
       deref option_map].
  rewrite HK. cbn [rbind ok KRR.matvec_attr]. auto.
Qed.

Lemma krr_round_trip_witness :
  exists alpha,
    returned (KRR.train Rational.solve Caller.arrays 1
                        (Rational.column [3; 4]%Z)
                        (Caller.ridge (Rational.of_Z 0))) = ok tt /\
    KRR.Alpha (self_after
                 (KRR.train Rational.solve Caller.arrays 1
                            (Rational.column [3; 4]%Z)
                            (Caller.ridge (Rational.of_Z 0))))
    = Some alpha /\
    matvec Caller.identity2 alpha = ok (Rational.column [3; 4]%Z) /\
    returned (KRR.predict Caller.arrays (Caller.arrays 1)
                (self_after
                   (KRR.train Rational.solve Caller.arrays 1
                              (Rational.column [3; 4]%Z)
                              (Caller.ridge (Rational.of_Z 0)))))
    = matvec Caller.identity2 alpha /\
    returned (KRR.predict Caller.arrays (Caller.arrays 1)
                (self_after
                   (KRR.train Rational.solve Caller.arrays 1
                              (Rational.column [3; 4]%Z)
                              (Caller.ridge (Rational.of_Z 0)))))
    = ok (Rational.column [3; 4]%Z).
Proof.
  exact (@krr_round_trip Rational.scalar Rational.solve Caller.arrays 1
           (Rational.column [3; 4]%Z) (Caller.ridge (Rational.of_Z 0))
           Caller.identity2
           rational_solve_sound rational_solve_complete
           rational_mul_zero rational_add_zero
           eq_refl gram_identity2 identity2_square identity2_nonsingular
           eq_refl).
Defined.

(* ================================================================== *)
(** * Further properties of the two classes *)

(** A logistic [train] with no iteration allowed. With [max_iter <= 0] the
    loop body never runs, [step] is never bound, and the test after the
    loop raises [UnboundLocalError]: [Data] has been set to [X], [Alpha] is
    untouched and nothing is printed. So a [train] that returns was given
    [max_iter >= 1]. *)
Theorem klr_train_needs_budget {F : Scalar} (solve : LinearSolver)
        h X y (self : KLR.t) K :
  KLR.Kernel self (h X) (Some (h X)) = ok K ->
  ((KLR.max_iter self <= 0)%Z ->
   KLR.train solve h X y self
   = Outcome (KLR.set_Data (Some X) self) [] (inl UnboundLocalError)) /\
  (returned (KLR.train solve h X y self) = ok tt ->
   (1 <= KLR.max_iter self)%Z).
Proof.
  intros HK.
  assert (H0 : (KLR.max_iter self <= 0)%Z ->
               KLR.train solve h X y self
               = Outcome (KLR.set_Data (Some X) self) []
                         (inl UnboundLocalError)).
  { intros Hmi. rewrite klr_train_unfold. cbv zeta. rewrite HK.
    cbn [rbind ok]. unfold klr_fit.
    rewrite (proj2 (range_nil (KLR.max_iter self)) Hmi). reflexivity. }
  split; [exact H0|]. intros Hret.
  destruct (Z.le_gt_cases (KLR.max_iter self) 0) as [Hle|Hgt]; [|lia].
  rewrite (H0 Hle) in Hret. discriminate.
Qed.

Lemma klr_train_needs_budget_witness :
  returned (KLR.train Rational.solve Caller.arrays 0 (Rational.column [1]%Z)
                      (Caller.logistic Caller.quarter Caller.half 0))
  = inl UnboundLocalError /\
  KLR.Data (self_after
              (KLR.train Rational.solve Caller.arrays 0
                         (Rational.column [1]%Z)
                         (Caller.logistic Caller.quarter Caller.half 0)))
  = Some 0 /\
  (1 <= KLR.max_iter (Caller.logistic Caller.quarter Caller.half 3))%Z.
Proof.
  set (K := match Rational.linear (Caller.arrays 0) (Some (Caller.arrays 0))
            with inr K => K | inl _ => [] end).
  assert (HK : Rational.linear (Caller.arrays 0) (Some (Caller.arrays 0))
               = ok K) by (vm_compute; reflexivity).
  destruct (@klr_train_needs_budget Rational.scalar Rational.solve
              Caller.arrays 0 (Rational.column [1]%Z)
              (Caller.logistic Caller.quarter Caller.half 0) K HK)
    as [H0 _].
  destruct (@klr_train_needs_budget Rational.scalar Rational.solve
              Caller.arrays 0 (Rational.column [1]%Z)
              (Caller.logistic Caller.quarter Caller.half 3) K HK)
    as [_ H3].
  assert (Hle : (KLR.max_iter (Caller.logistic Caller.quarter Caller.half 0)
                 <= 0)%Z) by (cbn; lia).
  rewrite (H0 Hle). split; [reflexivity|]. split; [reflexivity|].
  apply H3. vm_compute. reflexivity.
Defined.

(** [reset] undoes everything: whatever the caller did with an estimator,
    after [reset()] it is the object its constructor returned. *)
Theorem reset_restores_construction {F : Scalar} (solve : LinearSolver)
        (h : store) (kernel : kernel_func) (Lambda tol : num) (max_iter : Z)
        (threshold : num) (actions : list action) :
  let r := krr_session solve h kernel Lambda (actions ++ [Reset]) in
  let l := klr_session solve h kernel Lambda tol max_iter threshold
                       (actions ++ [Reset]) in
  obj r = self_after (KRR.init kernel Lambda) /\
  phase r = Uninitialized /\
  obj l = self_after (KLR.init kernel Lambda tol max_iter threshold) /\
  phase l = Uninitialized.
Proof.
  cbv zeta.
  pose proof (krr_session_config solve h kernel Lambda actions) as [Hk Hl].
  pose proof (klr_session_config solve h kernel Lambda tol max_iter threshold
                actions) as (Hk' & Hl' & Ht & Hm & Hth).
  cbv zeta in *. unfold krr_session, klr_session in *.
  rewrite !run_snoc. cbn [act obj phase].
  rewrite krr_reset_unfold, klr_reset_unfold. cbn [self_after].
  rewrite Hk, Hl, Hk', Hl', Ht, Hm, Hth. auto.
Qed.

(** From a [train] that returned until the next [reset], an estimator
    holds both a training array and coefficients, whatever else the caller
    does in between (failed trainings included): [predict] then never
    meets a [None] attribute. *)
Theorem trained_holds_data_and_alpha {F : Scalar} (solve : LinearSolver)
        (h : store) (kernel : kernel_func) (Lambda tol : num) (max_iter : Z)
        (threshold : num) (actions : list action) :
  let r := krr_session solve h kernel Lambda actions in
  let l := klr_session solve h kernel Lambda tol max_iter threshold actions in
  (phase r = Trained ->
   exists D alpha,
     KRR.Data (obj r) = Some D /\ KRR.Alpha (obj r) = Some alpha /\
     forall X,
       returned (KRR.predict (heap r) X (obj r))
       = (K <- kernel X (Some (heap r D)) ;; matvec K alpha)%res) /\
  (phase l = Trained ->
   exists D alpha,
     KLR.Data (obj l) = Some D /\ KLR.Alpha (obj l) = Some alpha /\
     forall X,
       returned (KLR.predict (heap l) X (obj l))
       = (K <- kernel X (Some (heap l D)) ;;
          f <- matvec K alpha ;;
          ok (map (fun f_i =>
                     KLR.label (KLR.indicator threshold (KLR.sigmoid f_i)))
                  f))%res).
Proof.
  cbv zeta. split; intros Hp.
  - destruct (krr_trained_attrs solve h kernel Lambda actions Hp)
      as [[D HD] [alpha Ha]].
    pose proof (krr_session_config solve h kernel Lambda actions) as [Hk _].
    cbv zeta in Hk. exists D, alpha. split; [exact HD|]. split; [exact Ha|].
    intros X. rewrite krr_predict_unfold. cbn [returned].
    now rewrite HD, Ha, Hk.
  - destruct (klr_trained_attrs solve h kernel Lambda tol max_iter threshold
                actions Hp) as [[D HD] [alpha Ha]].
    pose proof (klr_session_config solve h kernel Lambda tol max_iter
                  threshold actions) as (Hk & _ & _ & _ & Hth).
    cbv zeta in Hk, Hth. exists D, alpha.
    split; [exact HD|]. split; [exact Ha|].
    intros X. rewrite klr_predict_unfold. cbn [returned].
    now rewrite HD, Ha, Hk, Hth.
Qed.

Lemma trained_holds_data_and_alpha_witness :
  let r := krr_session Rational.solve Caller.arrays Rational.linear
                       (Rational.of_Z 0) Caller.calls_trained in
  let l := klr_session Rational.solve Caller.arrays Rational.linear
                       (Rational.of_Z 0) Caller.half 3 Caller.half
                       Caller.calls_trained in
  (phase r = Trained /\
   exists D alpha,
     KRR.Data (obj r) = Some D /\ KRR.Alpha (obj r) = Some alpha /\
     forall X,
       returned (KRR.predict (heap r) X (obj r))
       = (K <- Rational.linear X (Some (heap r D)) ;; matvec K alpha)%res) /\
  (phase l = Trained /\
   exists D alpha,
     KLR.Data (obj l) = Some D /\ KLR.Alpha (obj l) = Some alpha /\
     forall X,
       returned (KLR.predict (heap l) X (obj l))
       = (K <- Rational.linear X (Some (heap l D)) ;;
          f <- matvec K alpha ;;
          ok (map (fun f_i =>
                     KLR.label (KLR.indicator (F := Rational.scalar)
                                              Caller.half (KLR.sigmoid f_i)))
                  f))%res).
Proof.
  cbv zeta.
  destruct (@trained_holds_data_and_alpha Rational.scalar Rational.solve
              Caller.arrays Rational.linear (Rational.of_Z 0) Caller.half 3
              Caller.half Caller.calls_trained) as [Hr Hl].
  assert (Pr : phase (krr_session Rational.solve Caller.arrays Rational.linear
                                  (Rational.of_Z 0) Caller.calls_trained)
               = Trained) by (vm_compute; reflexivity).
  assert (Pl : phase (klr_session Rational.solve Caller.arrays Rational.linear
                                  (Rational.of_Z 0) Caller.half 3 Caller.half
                                  Caller.calls_trained)
               = Trained) by (vm_compute; reflexivity).
  split.
  - split; [exact Pr|exact (Hr Pr)].
  - split; [exact Pl|exact (Hl Pl)].
Defined.

(** [train] starts afresh: what it returns, prints and stores depends on
    the configuration and its arguments only, never on the [Data] and
    [Alpha] of an earlier training. Retraining an estimator gives the
    estimator that training a newly constructed one would give. *)
Theorem train_forgets_previous_fit {F : Scalar} (solve : LinearSolver)
        h X y (r1 r2 : KRR.t) (l1 l2 : KLR.t) :
  (KRR.Kernel r1 = KRR.Kernel r2 -> KRR.Lambda r1 = KRR.Lambda r2 ->
   let o1 := KRR.train solve h X y r1 in
   let o2 := KRR.train solve h X y r2 in
   returned o1 = returned o2 /\ console o1 = console o2 /\
   KRR.Data (self_after o1) = KRR.Data (self_after o2) /\
   (returned o1 = ok tt -> self_after o1 = self_after o2)) /\
  (KLR.Kernel l1 = KLR.Kernel l2 -> KLR.Lambda l1 = KLR.Lambda l2 ->
   KLR.tol l1 = KLR.tol l2 -> KLR.max_iter l1 = KLR.max_iter l2 ->
   KLR.threshold l1 = KLR.threshold l2 ->
   let o1 := KLR.train solve h X y l1 in
   let o2 := KLR.train solve h X y l2 in
   returned o1 = returned o2 /\ console o1 = console o2 /\
   KLR.Data (self_after o1) = KLR.Data (self_after o2) /\
   (returned o1 = ok tt -> self_after o1 = self_after o2)).
Proof.
  split.
  - intros Hk Hl. cbv zeta. rewrite !krr_train_unfold. cbv zeta.
    rewrite Hk, Hl. destruct (rbind _ _) as [e|alpha]; cbn.
    + repeat split; auto. discriminate.
    + repeat split; auto. intros _. unfold KRR.set_Alpha, KRR.set_Data.
      cbn. now rewrite Hk, Hl.
  - intros Hk Hl Ht Hm Hth. cbv zeta. rewrite !klr_train_unfold. cbv zeta.
    unfold klr_fit, klr_warns. rewrite Hk, Hl, Ht, Hm.
    destruct (rbind _ _) as [e|l]; cbn.
    + repeat split; auto. discriminate.
    + repeat split; auto. intros _. unfold KLR.set_Alpha, KLR.set_Data.
      cbn. now rewrite Hk, Hl, Ht, Hm, Hth.
Qed.

Lemma train_forgets_previous_fit_witness :
  returned (KRR.train Rational.solve Caller.arrays 1
                      (Rational.column [3; 4]%Z) Caller.fitted_ridge)
  = returned (KRR.train Rational.solve Caller.arrays 1
                        (Rational.column [3; 4]%Z)
                        (Caller.ridge (Rational.of_Z 0))) /\
  self_after (KRR.train Rational.solve Caller.arrays 1
                        (Rational.column [3; 4]%Z) Caller.fitted_ridge)
  = self_after (KRR.train Rational.solve Caller.arrays 1
                          (Rational.column [3; 4]%Z)
                          (Caller.ridge (Rational.of_Z 0))) /\
  returned (KLR.train Rational.solve Caller.arrays 0
                      (Rational.column [1]%Z) Caller.fitted_logistic)
  = returned (KLR.train Rational.solve Caller.arrays 0
                        (Rational.column [1]%Z)
                        (Caller.logistic Caller.quarter Caller.half 3)) /\
  self_after (KLR.train Rational.solve Caller.arrays 0
                        (Rational.column [1]%Z) Caller.fitted_logistic)
  = self_after (KLR.train Rational.solve Caller.arrays 0
                          (Rational.column [1]%Z)
                          (Caller.logistic Caller.quarter Caller.half 3)).
Proof.
  destruct (@train_forgets_previous_fit Rational.scalar Rational.solve
              Caller.arrays 1 (Rational.column [3; 4]%Z)
              Caller.fitted_ridge (Caller.ridge (Rational.of_Z 0))
              Caller.fitted_logistic
              (Caller.logistic Caller.quarter Caller.half 3)) as [Hr _].
  destruct (@train_forgets_previous_fit Rational.scalar Rational.solve
              Caller.arrays 0 (Rational.column [1]%Z)
              Caller.fitted_ridge (Caller.ridge (Rational.of_Z 0))
              Caller.fitted_logistic
              (Caller.logistic Caller.quarter Caller.half 3)) as [_ Hl].
  assert (Kr : KRR.Kernel Caller.fitted_ridge
               = KRR.Kernel (Caller.ridge (Rational.of_Z 0))).
  { apply (configuration_frame_krr Rational.solve). }
  assert (Lr : KRR.Lambda Caller.fitted_ridge
               = KRR.Lambda (Caller.ridge (Rational.of_Z 0))).
  { apply (configuration_frame_krr Rational.solve). }
  destruct (Hr Kr Lr) as (R1 & _ & _ & R2).
  assert (Cl : KLR.Kernel Caller.fitted_logistic
               = KLR.Kernel (Caller.logistic Caller.quarter Caller.half 3) /\
               KLR.Lambda Caller.fitted_logistic
               = KLR.Lambda (Caller.logistic Caller.quarter Caller.half 3) /\
               KLR.tol Caller.fitted_logistic
               = KLR.tol (Caller.logistic Caller.quarter Caller.half 3) /\
               KLR.max_iter Caller.fitted_logistic
               = KLR.max_iter (Caller.logistic Caller.quarter Caller.half 3) /\
               KLR.threshold Caller.fitted_logistic
               = KLR.threshold (Caller.logistic Caller.quarter Caller.half 3)).
  { apply (configuration_frame_klr Rational.solve). }
  destruct Cl as (C1 & C2 & C3 & C4 & C5).
  destruct (Hl C1 C2 C3 C4 C5) as (L1 & _ & _ & L2).
  split; [exact R1|]. split.
  - apply R2. vm_compute. reflexivity.
  - split; [exact L1|]. apply L2. vm_compute. reflexivity.
Defined.

(** [predict] returns one prediction per row of the matrix that the
    kernel returns for [(X, Data)], and only when every such row has one
    entry per coefficient of [Alpha]. *)
Theorem predict_one_value_per_row {F : Scalar} h X (r : KRR.t) (l : KLR.t)
        (out : vec) (labels : list Z) :
  (returned (KRR.predict h X r) = ok out ->
   exists K alpha,
     KRR.Kernel r X (deref h (KRR.Data r)) = ok K /\
     KRR.Alpha r = Some alpha /\
     length out = nrows K /\
     Forall (fun row => length row = length alpha) K) /\
  (returned (KLR.predict h X l) = ok labels ->
   exists K alpha,
     KLR.Kernel l X (deref h (KLR.Data l)) = ok K /\
     KLR.Alpha l = Some alpha /\
     length labels = nrows K /\
     Forall (fun row => length row = length alpha) K).
Proof.
  split.
  - rewrite krr_predict_unfold. cbn [returned].
    destruct (KRR.Kernel r X _) as [e|K]; cbn [rbind]; [discriminate|].
    destruct (KRR.Alpha r) as [alpha|]; cbn [KRR.matvec_attr]; [|discriminate].
    intros H. exists K, alpha. pose proof (matvec_length _ _ H) as Hlen.
    apply matvec_ok_inv in H as [Hrows _]. auto.
  - rewrite klr_predict_unfold. cbn [returned].
    destruct (KLR.Kernel l X _) as [e|K]; cbn [rbind]; [discriminate|].
    destruct (KLR.Alpha l) as [alpha|]; cbn [KLR.matvec_attr]; [|discriminate].
    destruct (matvec K alpha) as [e|f] eqn:H; cbn [rbind]; [discriminate|].
    intros [= <-]. exists K, alpha. pose proof (matvec_length _ _ H) as Hlen.
    apply matvec_ok_inv in H as [Hrows _]. rewrite length_map. auto.
Qed.

Lemma predict_one_value_per_row_witness :
  returned (KLR.predict Caller.arrays (Caller.arrays 3)
                        Caller.fitted_logistic) = ok [-1; 1]%Z /\
  (exists K alpha,
      Rational.linear (Caller.arrays 3)
                      (deref Caller.arrays (KLR.Data Caller.fitted_logistic))
      = ok K /\
      KLR.Alpha Caller.fitted_logistic = Some alpha /\
      length [-1; 1]%Z = nrows K /\
      Forall (fun row => length row = length alpha) K) /\
  exists out,
    returned (KRR.predict Caller.arrays (Caller.arrays 1) Caller.fitted_ridge)
    = ok out /\
    exists K alpha,
      Rational.linear (Caller.arrays 1)
                      (deref Caller.arrays (KRR.Data Caller.fitted_ridge))
      = ok K /\
      KRR.Alpha Caller.fitted_ridge = Some alpha /\
      length out = nrows K /\
      Forall (fun row => length row = length alpha) K.
Proof.
  set (out := match returned (KRR.predict Caller.arrays (Caller.arrays 1)
                                          Caller.fitted_ridge)
              with inr v => v | inl _ => [] end).
  assert (Hk : returned (KRR.predict Caller.arrays (Caller.arrays 1)
                                     Caller.fitted_ridge) = ok out)
    by (vm_compute; reflexivity).
  assert (Hl : returned (KLR.predict Caller.arrays (Caller.arrays 3)
                                     Caller.fitted_logistic) = ok [-1; 1]%Z)
    by (vm_compute; reflexivity).
  destruct (@predict_one_value_per_row Rational.scalar Caller.arrays
              (Caller.arrays 1) Caller.fitted_ridge Caller.fitted_logistic
              out [-1; 1]%Z) as [Pk _].
  destruct (@predict_one_value_per_row Rational.scalar Caller.arrays
              (Caller.arrays 3) Caller.fitted_ridge Caller.fitted_logistic
              out [-1; 1]%Z) as [_ Pl].
  split; [exact Hl|]. split; [exact (Pl Hl)|].
  exists out. split; [exact Hk|exact (Pk Hk)].
Defined.

(** The warning of the logistic [train] is never spurious. A [train] that
    returned prints nothing or the one warning naming [max_iter]; it
    prints the warning only if the iteration exhausted its budget with no
    step below [tol], and nothing if some step, the last allowed one
    included, met the tolerance. [<] is taken asymmetric. *)
Theorem klr_warning_only_when_exhausted {F : Scalar} (solve : LinearSolver)
        h X y (self : KLR.t) :
  solve_sound solve ->
  (forall a b, flt a b = true -> flt b a = false) ->
  returned (KLR.train solve h X y self) = ok tt ->
  let o := KLR.train solve h X y self in
  exists K alpha v,
    KLR.Kernel self (h X) (Some (h X)) = ok K /\
    KLR.Alpha (self_after o) = Some alpha /\
    irls K y (KLR.Lambda self) (KLR.tol self)
         (Z.to_nat (KLR.max_iter self)) (zeros (nrows K)) alpha v /\
    (console o = [] \/
     console o = [KLR.warning (KLR.max_iter self)] /\ v = ExhaustedBudget) /\
    (v = Converged -> console o = []).
Proof.
  intros Hs Hasym. cbv zeta. rewrite klr_train_unfold. cbv zeta.
  destruct (KLR.Kernel self (h X) (Some (h X))) as [e|K] eqn:EK; cbn [rbind];
    [discriminate|].
  destruct (klr_fit solve self K y) as [e|l] eqn:Efit; [discriminate|].
  intros _. cbn [self_after console KLR.set_Alpha KLR.Alpha].
  exists K, (KLR.alpha_new l), (verdict_of (KLR.tol self) l).
  pose proof (klr_warns_iff solve self K y Hasym Efit) as Hw.
  split; [reflexivity|]. split; [reflexivity|]. split.
  - unfold klr_fit in Efit.
    destruct (KLR.for_loop _ _ _ _ _ _ _ _ _ _) as [e|bound] eqn:El;
      cbn [rbind] in Efit; [discriminate|].
    destruct bound as [l'|]; cbn [KLR.read_locals] in Efit; [|discriminate].
    injection Efit as ->.
    assert (Hne : KLR.range (KLR.max_iter self) <> []).
    { intros E. rewrite E in El. discriminate. }
    apply for_loop_irls in El as (Hi & _ & _); auto.
    unfold KLR.range in Hi. now rewrite length_map, length_seq in Hi.
  - destruct (klr_warns self l) eqn:W.
    + split.
      * right. split; [reflexivity|]. now apply Hw.
      * intros Hc. destruct (proj1 Hw eq_refl) as [He _]. congruence.
    + split; auto.
Qed.

Lemma klr_warning_only_when_exhausted_witness :
  let y := Rational.column [1]%Z in
  let o := KLR.train Rational.solve Caller.arrays 0 y Caller.impatient in
  returned o = ok tt /\
  console o = [KLR.warning 1] /\
  exists K alpha,
    Rational.linear (Caller.arrays 0) (Some (Caller.arrays 0)) = ok K /\
    KLR.Alpha (self_after o) = Some alpha /\
    irls (F := Rational.scalar) K y Caller.quarter Caller.half 1
         (zeros (nrows K)) alpha ExhaustedBudget.
Proof.
  cbv zeta.
  assert (Hret : returned (KLR.train Rational.solve Caller.arrays 0
                                     (Rational.column [1]%Z) Caller.impatient)
                 = ok tt) by (vm_compute; reflexivity).
  assert (Hcon : console (KLR.train Rational.solve Caller.arrays 0
                                    (Rational.column [1]%Z) Caller.impatient)
                 = [KLR.warning 1]) by (vm_compute; reflexivity).
  split; [exact Hret|]. split; [exact Hcon|].
  destruct (@klr_warning_only_when_exhausted Rational.scalar Rational.solve
              Caller.arrays 0 (Rational.column [1]%Z) Caller.impatient
              rational_solve_sound rational_lt_asym Hret)
    as (K & alpha & v & HK & HA & Hirls & [Hc|[_ Hv]] & _).
  - rewrite Hcon in Hc. discriminate.
  - subst v. exists K, alpha. split; [exact HK|]. split; [exact HA|].
    exact Hirls.
Defined.

(** The coefficients have one entry per training example. After a [train]
    that returned, [Alpha] is as long as the Gram matrix has rows: for the
    ridge estimator when the Gram matrix is square and not empty, for the
    logistic estimator always, since each iterate is subtracted from the
    one before and the first one is [zeros(n)]. *)
Theorem alpha_one_entry_per_example {F : Scalar} (solve : LinearSolver)
        h X y (r : KRR.t) (l : KLR.t) K :
  (solve_sound solve ->
   KRR.Kernel r (h X) (Some (h X)) = ok K -> square K -> K <> [] ->
   returned (KRR.train solve h X y r) = ok tt ->
   exists alpha,
     KRR.Alpha (self_after (KRR.train solve h X y r)) = Some alpha /\
     length alpha = nrows K /\ length y = nrows K) /\
  (KLR.Kernel l (h X) (Some (h X)) = ok K ->
   returned (KLR.train solve h X y l) = ok tt ->
   exists alpha,
     KLR.Alpha (self_after (KLR.train solve h X y l)) = Some alpha /\
     length alpha = nrows K).
Proof.
  split.
  - intros Hs HK Hsq Hne. rewrite krr_train_unfold. cbv zeta. rewrite HK.
    cbn [rbind ok].
    destruct (ridge_system (KRR.Lambda r) K) as [e|A] eqn:EA; cbn [rbind];
      [discriminate|].
    destruct (solve A y) as [e|alpha] eqn:E; [discriminate|].
    intros _. exists alpha. split; [reflexivity|].
    apply Hs in E. pose proof (matvec_length _ _ E) as Hy.
    apply matvec_ok_inv in E as [Hrows _].
    destruct (@madd_shape F (length K) (length K) K _ A Hsq EA)
      as [HnA HkA]. unfold nrows.
    destruct A as [|a A].
    + destruct K; [congruence|discriminate].
    + pose proof (Forall_inv Hrows) as H1. pose proof (Forall_inv HkA) as H2.
      cbv beta in H1, H2. split; congruence.
  - intros HK. rewrite klr_train_unfold. cbv zeta. rewrite HK.
    cbn [rbind ok]. unfold klr_fit.
    destruct (KLR.for_loop _ _ _ _ _ _ _ _ _ _) as [e|bound] eqn:El;
      cbn [rbind]; [discriminate|].
    destruct bound as [l'|]; cbn [KLR.read_locals]; [|discriminate].
    intros _. exists (KLR.alpha_new l'). split; [reflexivity|].
    assert (Hne : KLR.range (KLR.max_iter l) <> []).
    { intros E. rewrite E in El. discriminate. }
    apply for_loop_length in El; auto. rewrite El. unfold zeros.
    apply repeat_length.
Qed.

Lemma alpha_one_entry_per_example_witness :
  (exists alpha,
      KRR.Alpha Caller.fitted_ridge = Some alpha /\
      length alpha = nrows Caller.identity2 /\
      length (Rational.column [3; 4]%Z) = nrows Caller.identity2) /\
  (exists alpha,
      KLR.Alpha (self_after
                   (KLR.train Rational.solve Caller.arrays 1
                              (Rational.column [1; -1]%Z)
                              (Caller.logistic Caller.quarter Caller.half 3)))
      = Some alpha /\
      length alpha = nrows Caller.identity2).
Proof.
  destruct (@alpha_one_entry_per_example Rational.scalar Rational.solve
              Caller.arrays 1 (Rational.column [3; 4]%Z)
              (Caller.ridge (Rational.of_Z 0))
              (Caller.logistic Caller.quarter Caller.half 3)
              Caller.identity2) as [Hr _].
  destruct (@alpha_one_entry_per_example Rational.scalar Rational.solve
              Caller.arrays 1 (Rational.column [1; -1]%Z)
              (Caller.ridge (Rational.of_Z 0))
              (Caller.logistic Caller.quarter Caller.half 3)
              Caller.identity2) as [_ Hl].
  split.
  - apply (Hr rational_solve_sound gram_identity2 identity2_square).
    + discriminate.
    + vm_compute. reflexivity.
  - apply (Hl gram_identity2). vm_compute. reflexivity.
Defined.

(** The matrices that [loss] returns act entry by entry: on a column [v]
    as long as [s], [P @ v] is [l1(s) * v] and [W @ v] is [l2(s) * v],
    with [l1(s_i) = -1/(1 + exp(s_i))] and
    [l2(s_i) = exp(s_i)/(1 + exp(s_i))**2]. The laws [0*a = 0],
    [0 + a = a] and [a + 0 = a] of exact arithmetic are assumed. *)
Theorem loss_acts_entrywise {F : Scalar} (s v : vec) :
  (forall a, fmul fzero a = fzero) ->
  (forall a, fadd fzero a = a) -> (forall a, fadd a fzero = a) ->
  length v = length s ->
  matvec (fst (KLR.loss s)) v
  = ok (map (fun p => fmul (fdiv (fneg fone) (fadd fone (fexp (fst p))))
                           (snd p))
            (combine s v)) /\
  matvec (snd (KLR.loss s)) v
  = ok (map (fun p =>
               fmul (fdiv (fexp (fst p))
                          (fmul (fadd fone (fexp (fst p)))
                                (fadd fone (fexp (fst p)))))
                    (snd p))
            (combine s v)).
Proof.
  intros Hmul Hl Hr Hlen. unfold KLR.loss. cbn [fst snd].
  rewrite !matvec_diag by (auto; now rewrite length_map).
  unfold zipWith. split; f_equal.
  - clear. revert v. induction s as [|a s IH]; intros [|x v]; cbn; auto.
    now rewrite IH.
  - clear. revert v. induction s as [|a s IH]; intros [|x v]; cbn; auto.
    now rewrite IH.
Qed.

Lemma loss_acts_entrywise_witness :
  matvec (fst (KLR.loss (Rational.column [0; 0]%Z))) (Rational.column [3; 4]%Z)
  = ok (map (fun p =>
               @fmul Rational.scalar
                     (fdiv (fneg fone) (fadd fone (fexp (fst p)))) (snd p))
            (combine (Rational.column [0; 0]%Z) (Rational.column [3; 4]%Z))).
Proof.
  exact (proj1 (@loss_acts_entrywise Rational.scalar
                  (Rational.column [0; 0]%Z) (Rational.column [3; 4]%Z)
                  rational_mul_zero rational_zero_add rational_add_zero
                  eq_refl)).
Defined.

(** What the ridge estimator predicts on its own training data. After a
    [train(X, y)] that returned, with a square Gram matrix [K],
    [predict(X)] returns [K @ Alpha], and adding [Lambda*n*Alpha] to it,
    entry by entry, gives back the targets [y]: the training residual is
    the regularization term. Arithmetic is taken exact and
    [np.linalg.solve] sound. *)
Theorem krr_training_residual {F : Scalar} (solve : LinearSolver)
        h X y (self : KRR.t) K :
  exact_arithmetic -> solve_sound solve ->
  KRR.Kernel self (h X) (Some (h X)) = ok K -> square K ->
  returned (KRR.train solve h X y self) = ok tt ->
  let self' := self_after (KRR.train solve h X y self) in
  exists alpha pred,
    KRR.Alpha self' = Some alpha /\
    returned (KRR.predict h (h X) self') = ok pred /\
    zipWith fadd pred
            (map (fmul (fmul (KRR.Lambda self) (fint (nrows K)))) alpha)
    = y /\
    matvec K alpha = ok pred.
Proof.
  intros Hlaws Hs HK Hsq. rewrite krr_train_unfold. cbv zeta. rewrite HK.
  cbn [rbind ok].
  destruct (ridge_system (KRR.Lambda self) K) as [e|A] eqn:EA; cbn [rbind];
    [discriminate|].
  destruct (solve A y) as [e|alpha] eqn:E; [discriminate|].
  intros _. cbn [self_after]. exists alpha, (map (fun r => dot r alpha) K).
  split; [reflexivity|].
  apply Hs in E. pose proof E as E'.
  apply matvec_ok_inv in E' as [Hrows Hyeq].
  destruct (@madd_shape F (length K) (length K) K _ A Hsq EA) as [HnA HkA].
  assert (Hpred : forall M, M = K ->
            Forall (fun r => length r = length alpha) M ->
            returned (KRR.predict h (h X)
                        (KRR.set_Alpha (Some alpha)
                                       (KRR.set_Data (Some X) self)))
            = ok (map (fun r => dot r alpha) M)).
  { intros M -> HM. rewrite krr_predict_unfold.
    cbn [returned KRR.set_Alpha KRR.set_Data KRR.Kernel KRR.Data KRR.Alpha
         deref option_map].
    rewrite HK. cbn [rbind ok KRR.matvec_attr]. now apply matvec_ok_intro. }
  destruct K as [|k0 K'].
  - split; [now apply Hpred|]. split; [|reflexivity].
    unfold ridge_system, madd in EA.
    cbn in EA. injection EA as <-. cbn in Hyeq. now subst y.
  - assert (Hlen : length alpha = length (k0 :: K')).
    { destruct A as [|a0 A']; [discriminate|].
      pose proof (Forall_inv Hrows) as H1. pose proof (Forall_inv HkA) as H2.
      cbv beta in H1, H2. congruence. }
    destruct Hsq as [_ Hsq].
    assert (HK' : Forall (fun r => length r = length alpha) (k0 :: K')).
    { eapply Forall_impl; [|exact Hsq]. cbv beta. intros r Hr. congruence. }
    split; [|split].
    + apply Hpred; auto.
    + symmetry. apply (matvec_ridge_system Hlaws) with (A := A); auto.
      * rewrite Hlen. split; [reflexivity|exact Hsq].
      * rewrite Hlen. exact EA.
    + now apply matvec_ok_intro.
Qed.

Lemma krr_training_residual_witness :
  let self' := self_after (KRR.train Rational.solve Caller.arrays 1
                                     (Rational.column [3; 4]%Z)
                                     (Caller.ridge Caller.half)) in
  exists alpha pred,
    KRR.Alpha self' = Some alpha /\
    returned (KRR.predict Caller.arrays (Caller.arrays 1) self') = ok pred /\
    zipWith (F := Rational.scalar) fadd pred
            (map (@fmul Rational.scalar
                        (@fmul Rational.scalar Caller.half
                               (fint (nrows Caller.identity2))))
                 alpha)
    = Rational.column [3; 4]%Z /\
    matvec Caller.identity2 alpha = ok pred.
Proof.
  cbv zeta.
  apply (@krr_training_residual Rational.scalar Rational.solve Caller.arrays
           1 (Rational.column [3; 4]%Z) (Caller.ridge Caller.half)
           Caller.identity2 rational_exact rational_solve_sound
           gram_identity2 identity2_square).
  vm_compute. reflexivity.
Defined.
